(** * tc-play: the command-line front end (main.c) and the engine contracts it drives

    The development embeds [main.c] of tc-play: the signal handler, the
    option loop of [main], its argument check and the dispatch to the three
    engine operations [create_volume], [info_volume] and [map_volume].

    Conventions of the embedding.
    - An [int] is a [Z]; a C condition [if (x)] is [truthy x].  Incrementing
      a signed [int] past [INT_MAX] is undefined behaviour and is modelled as
      such.
    - A [const char *] is a [cstr]: [None] is [NULL].
    - [getopt_long] belongs to libc.  One run of the option loop consumes the
      sequence of results [getopt_long] hands back, each a pair of the
      returned character [ch] and the value of [optarg] at that moment; the
      end of the sequence is the return value [-1].  The properties of
      [main] are stated for every such sequence.  The function [getopt_long]
      below gives the sequence for a command line, from the option string
      and the table [longopts] of [main.c]; it serves to run [main] on
      concrete command lines.
    - The declarations of [tc-play.h] ([MAX_KEYFILES], [DEFAULT_RETRIES],
      [MAJ_VER], [MIN_VER], the two registry types, the two registry lookups
      and the three engine operations) are not part of [main.c]: they are
      the interfaces [tc_play_h] and [engine], and the signal numbers of
      [signal.h] are the interface [signal_h]. *)

From Stdlib Require Import ZArith NArith Lia Ascii String List Strings.Byte.
From stdpp Require Import base list strings gmap.

Open Scope Z_scope.

(** ** C data *)

Definition INT_MAX : Z := 2147483647.

(** [if (x)] on an [int]. *)
Definition truthy (x : Z) : bool := negb (x =? 0).

(** The [int] value of a character constant such as ['k']. *)
Definition chr (a : ascii) : Z := Z.of_N (N_of_ascii a).

(** [const char *]. *)
Definition cstr : Type := option string.

(** [p != NULL]. *)
Definition non_null {A : Type} (p : option A) : bool :=
  match p with Some _ => true | None => false end.

(** One element of a [const char *x[MAX_KEYFILES]] array with automatic
    storage: indeterminate until assigned. *)
Inductive slot : Type :=
| Indeterminate
| Stored (p : cstr).

(** The ways in which the C program can leave defined behaviour. *)
Inductive undefined : Type :=
| OutOfBounds      (* a store past the end of an array *)
| SignedOverflow   (* [n++] at [INT_MAX] *)
| NullDeref        (* a [NULL] string handed to [strcmp] or to a lookup *)
| UninitRead.      (* [return error] with [error] never assigned *)

(** ** getopt_long *)

(** One result of [getopt_long]: the value returned and [optarg]. *)
Record opt_event : Type := OptEvent { ch : Z; optarg : cstr }.

Inductive has_arg : Type := no_argument | required_argument.

(** [static struct option longopts[]] (every entry has a [NULL] flag, so
    [getopt_long] returns [val]). *)
Definition longopts : list (string * has_arg * Z) :=
  [ ("create"%string,            no_argument,       chr "c");
    ("cipher"%string,            required_argument, chr "b");
    ("hidden"%string,            no_argument,       chr "g");
    ("pbkdf-prf"%string,         required_argument, chr "a");
    ("info"%string,              no_argument,       chr "i");
    ("map"%string,               required_argument, chr "m");
    ("keyfile"%string,           required_argument, chr "k");
    ("keyfile-hidden"%string,    required_argument, chr "f");
    ("protect-hidden"%string,    no_argument,       chr "e");
    ("device"%string,            required_argument, chr "d");
    ("system-encryption"%string, required_argument, chr "s");
    ("version"%string,           no_argument,       chr "v");
    ("help"%string,              no_argument,       chr "h") ].

(** The short option string of the call in [main]. *)
Definition optstring : string := "a:b:cd:efgh:ik:m:s:v".

(** The value [getopt_long] returns for a long option name. *)
Definition long_val (name : string) : option Z :=
  (fun e => snd e) <$> List.find (fun e => String.eqb (fst (fst e)) name) longopts.

(** *** getopt_long on the command line

    [getopt_long] is libc's; what follows is its behaviour as its manual
    gives it, for [optstring] and [longopts]: the elements of [argv] after
    the program name are scanned in order, an element that is no option is
    passed over, [--] ends the scan, and each option found is one result.
    [optarg] is [NULL] in the result of an option that takes no argument.
    ['?'] is the result for an unknown or ambiguous option and for a missing
    or unexpected argument. *)

(** How an option string lists the short option [c]: not at all, without
    argument, or followed by [:], with argument. *)
Fixpoint short_option (opts : string) (c : ascii) : option bool :=
  match opts with
  | EmptyString => None
  | String a rest =>
      if Ascii.eqb a c && negb (Ascii.eqb c ":")
      then Some (match rest with String ":" _ => true | _ => false end)
      else short_option rest c
  end.

(** The results for the characters of one element [-xyz]; [next] is the
    element that follows, and the flag tells whether it was taken as the
    argument. *)
Fixpoint short_cluster (s : string) (next : option string)
  : list opt_event * bool :=
  match s with
  | EmptyString => ([], false)
  | String a rest =>
      match short_option optstring a with
      | Some true =>
          match rest, next with
          | String _ _, _ => ([OptEvent (chr a) (Some rest)], false)
          | EmptyString, Some n => ([OptEvent (chr a) (Some n)], true)
          | EmptyString, None => ([OptEvent (chr "?") None], false)
          end
      | Some false =>
          let r := short_cluster rest next in
          (OptEvent (chr a) None :: fst r, snd r)
      | None =>
          let r := short_cluster rest next in
          (OptEvent (chr "?") None :: fst r, snd r)
      end
  end.

(** [name=value] split at the first [=]. *)
Fixpoint split_eq (s : string) : string * option string :=
  match s with
  | EmptyString => (EmptyString, None)
  | String a rest =>
      if Ascii.eqb a "=" then (EmptyString, Some rest)
      else let r := split_eq rest in (String a (fst r), snd r)
  end.

(** The entries of [longopts] a name selects: the one it spells exactly,
    or else those it abbreviates. *)
Definition long_matches (name : string) : list (string * has_arg * Z) :=
  match List.find (fun e => String.eqb (fst (fst e)) name) longopts with
  | Some e => [e]
  | None => List.filter (fun e => String.prefix name (fst (fst e))) longopts
  end.

(** The result for one element [--body]. *)
Definition long_option (body : string) (next : option string)
  : opt_event * bool :=
  match long_matches (fst (split_eq body)), snd (split_eq body), next with
  | [(_, no_argument, v)], None, _ => (OptEvent v None, false)
  | [(_, required_argument, v)], Some x, _ => (OptEvent v (Some x), false)
  | [(_, required_argument, v)], None, Some n => (OptEvent v (Some n), true)
  | _, _, _ => (OptEvent (chr "?") None, false)
  end.

(** The results of one element and whether it took [next] as argument;
    [None] for an element that is no option. *)
Definition scan_element (arg : string) (next : option string)
  : option (list opt_event * bool) :=
  match arg with
  | String a (String b rest) =>
      if Ascii.eqb a "-" then
        if Ascii.eqb b "-"
        then Some ([fst (long_option rest next)], snd (long_option rest next))
        else Some (short_cluster (String b rest) next)
      else None
  | _ => None
  end.

(** The sequence of results of the calls of [getopt_long] in [main], for the
    elements of [argv] after the program name. *)
Fixpoint getopt_long (argv : list string) : list opt_event :=
  match argv with
  | [] => []
  | arg :: rest =>
      if String.eqb arg "--" then [] else
      match rest with
      | [] =>
          match scan_element arg None with
          | Some r => fst r
          | None => []
          end
      | next :: rest' =>
          match scan_element arg (Some next) with
          | Some r => fst r ++ (if snd r then getopt_long rest' else getopt_long rest)
          | None => getopt_long rest
          end
      end
  end.

(** A result for [-a] or [-b] carries an argument. *)
Definition carries_argument (e : opt_event) : Prop :=
  ch e = chr "a" \/ ch e = chr "b" -> optarg e <> None.

(** The labels of the [switch] in [main]. *)
Inductive opt_case : Type :=
| Case_a | Case_b | Case_c | Case_d | Case_e | Case_f | Case_g
| Case_i | Case_k | Case_m | Case_s | Case_v | Case_default.

Definition switch (c : Z) : opt_case :=
  if c =? chr "a" then Case_a else
  if c =? chr "b" then Case_b else
  if c =? chr "c" then Case_c else
  if c =? chr "d" then Case_d else
  if c =? chr "e" then Case_e else
  if c =? chr "f" then Case_f else
  if c =? chr "g" then Case_g else
  if c =? chr "i" then Case_i else
  if c =? chr "k" then Case_k else
  if c =? chr "m" then Case_m else
  if c =? chr "s" then Case_s else
  if c =? chr "v" then Case_v else
  Case_default.   (* 'h', '?' and everything else *)

(** The labels whose pass of the loop body is a plain assignment: a later
    occurrence overwrites what an earlier one of the same label assigned. *)
Definition overwrites (k : opt_case) : bool :=
  match k with
  | Case_c | Case_d | Case_e | Case_g | Case_i | Case_m | Case_s => true
  | _ => false
  end.

(** The [optarg]s of the occurrences of option [c], in command-line order. *)
Definition optargs_of (c : Z) (evs : list opt_event) : list cstr :=
  optarg <$> List.filter (fun e => ch e =? c) evs.

(** The number of occurrences of option [c]. *)
Definition occurrences (c : Z) (evs : list opt_event) : nat :=
  length (optargs_of c evs).

(** [1] if option [c] occurs, [0] if not: the value of a flag that starts
    at [0] and that every occurrence of [c] sets to [1]. *)
Definition flag_of (c : Z) (evs : list opt_event) : Z :=
  match optargs_of c evs with [] => 0 | _ :: _ => 1 end.

(** The [optarg] of the last occurrence of option [c], [NULL] if there is
    none: the value of a pointer that starts at [NULL] and that every
    occurrence of [c] overwrites. *)
Definition last_arg (c : Z) (evs : list opt_event) : cstr :=
  match last (optargs_of c evs) with Some p => p | None => None end.

(** The argument check of [main], read on the results of [getopt_long]. *)
Definition accepted (evs : list opt_event) : bool :=
  let given c := truthy (flag_of (chr c) evs) in
  (given "m"%char || given "i"%char || given "c"%char)
  && non_null (last_arg (chr "d") evs)
  && negb (given "m"%char && given "i"%char)
  && negb (given "m"%char && given "c"%char)
  && negb (given "c"%char && given "i"%char)
  && negb (given "g"%char && negb (given "c"%char))
  && negb (given "s"%char && negb (non_null (last_arg (chr "s") evs)))
  && negb (given "m"%char && negb (non_null (last_arg (chr "m") evs)))
  && negb (negb (given "e"%char || given "c"%char) && given "f"%char).

(** ** tc-play.h and signal.h *)

(** What [main.c] takes from [tc-play.h], the engine operations apart. *)
Class tc_play_h : Type := {
  pbkdf_prf_algo : Type;
  tc_cipher_chain : Type;
  MAX_KEYFILES : Z;
  DEFAULT_RETRIES : Z;
  MAJ_VER : Z;
  MIN_VER : Z;
  check_prf_algo : string -> Z -> option pbkdf_prf_algo;
  check_cipher_chain : string -> Z -> option tc_cipher_chain }.

Class signal_h : Type := {
  SIGUSR1 : Z;
  SIGINFO : Z }.

Section Engine_interface.
Context {tch : tc_play_h}.

(** *** Arguments of the engine operations, in the order of the calls *)

Record create_volume_args : Type := CreateArgs {
  cv_dev : cstr;
  cv_hidden : Z;
  cv_keyfiles : list slot;
  cv_nkeyfiles : Z;
  cv_h_keyfiles : list slot;
  cv_n_hkeyfiles : Z;
  cv_prf : option pbkdf_prf_algo;
  cv_cipher_chain : option tc_cipher_chain;
  cv_arg9 : cstr;
  cv_arg10 : cstr;
  cv_arg11 : Z;
  cv_interactive : Z }.

Record info_volume_args : Type := InfoArgs {
  iv_dev : cstr;
  iv_sflag : Z;
  iv_sys_dev : cstr;
  iv_protect_hidden : Z;
  iv_keyfiles : list slot;
  iv_nkeyfiles : Z;
  iv_h_keyfiles : list slot;
  iv_n_hkeyfiles : Z;
  iv_arg9 : cstr;
  iv_arg10 : cstr;
  iv_interactive : Z;
  iv_retries : Z }.

Record map_volume_args : Type := MapArgs {
  mv_map_name : cstr;
  mv_dev : cstr;
  mv_sflag : Z;
  mv_sys_dev : cstr;
  mv_protect_hidden : Z;
  mv_keyfiles : list slot;
  mv_nkeyfiles : Z;
  mv_h_keyfiles : list slot;
  mv_n_hkeyfiles : Z;
  mv_arg10 : cstr;
  mv_arg11 : cstr;
  mv_interactive : Z;
  mv_retries : Z }.

Inductive engine_call : Type :=
| CreateVolume (a : create_volume_args)
| InfoVolume (a : info_volume_args)
| MapVolume (a : map_volume_args).

End Engine_interface.

(** The result code each engine operation returns in the run at hand. *)
Class engine {tch : tc_play_h} : Type := {
  create_volume : create_volume_args -> Z;
  info_volume : info_volume_args -> Z;
  map_volume : map_volume_args -> Z }.

Section Tc_play.
Context {tch : tc_play_h} {sigh : signal_h} {eng : engine}.

Definition engine_result (c : engine_call) : Z :=
  match c with
  | CreateVolume a => create_volume a
  | InfoVolume a => info_volume a
  | MapVolume a => map_volume a
  end.

(** *** What a run does *)

Inductive event : Type :=
| EInit                       (* tc_play_init() *)
| ESignal (sig : Z)           (* signal(sig, sig_handler) *)
| EUsage                      (* the text usage() prints on stderr *)
| EVersion (maj min : Z)      (* printf("tc-play v%d.%d\n", ...) *)
| ECall (c : engine_call)     (* an engine operation *)
| ELog (d : cstr).            (* tc_log(1, "could not create ...", dev) *)

Inductive outcome : Type :=
| Exit (code : Z)             (* exit(code) *)
| Return (code : Z)           (* return from main *)
| Undef (u : undefined).

Definition run : Type := (list event * outcome)%type.

(** *** sig_handler *)

(** The calls [sig_handler(sig)] makes, given the value of the global
    function pointer [summary_fn]; [summary] is the type of its callees. *)
Definition sig_handler {summary : Type} (summary_fn : option summary) (sig : Z)
  : list summary :=
  if ((sig =? SIGUSR1) || (sig =? SIGINFO)) && non_null summary_fn
  then match summary_fn with Some f => [f] | None => [] end
  else [].

(** *** The locals of main *)

Record locals : Type := Locals {
  dev : cstr;
  sys_dev : cstr;
  map_name : cstr;
  keyfiles : list slot;
  h_keyfiles : list slot;
  nkeyfiles : Z;
  n_hkeyfiles : Z;
  sflag : Z;
  info_vol : Z;
  map_vol : Z;
  protect_hidden : Z;
  create_vol : Z;
  contain_hidden : Z;
  prf : option pbkdf_prf_algo;
  cipher_chain : option tc_cipher_chain }.

(** The locals when the option loop is entered. *)
Definition init : locals :=
  {| dev := None; sys_dev := None; map_name := None;
     keyfiles := replicate (Z.to_nat MAX_KEYFILES) Indeterminate;
     h_keyfiles := replicate (Z.to_nat MAX_KEYFILES) Indeterminate;
     nkeyfiles := 0; n_hkeyfiles := 0;
     sflag := 0; info_vol := 0; map_vol := 0; protect_hidden := 0;
     create_vol := 0; contain_hidden := 0;
     prf := None; cipher_chain := None |}.

Definition set_prf (l : locals) (p : option pbkdf_prf_algo) : locals :=
  Locals (dev l) (sys_dev l) (map_name l) (keyfiles l) (h_keyfiles l)
    (nkeyfiles l) (n_hkeyfiles l) (sflag l) (info_vol l) (map_vol l)
    (protect_hidden l) (create_vol l) (contain_hidden l) p (cipher_chain l).

Definition set_cipher_chain (l : locals) (c : option tc_cipher_chain) : locals :=
  Locals (dev l) (sys_dev l) (map_name l) (keyfiles l) (h_keyfiles l)
    (nkeyfiles l) (n_hkeyfiles l) (sflag l) (info_vol l) (map_vol l)
    (protect_hidden l) (create_vol l) (contain_hidden l) (prf l) c.

Definition set_create_vol (l : locals) (v : Z) : locals :=
  Locals (dev l) (sys_dev l) (map_name l) (keyfiles l) (h_keyfiles l)
    (nkeyfiles l) (n_hkeyfiles l) (sflag l) (info_vol l) (map_vol l)
    (protect_hidden l) v (contain_hidden l) (prf l) (cipher_chain l).

Definition set_dev (l : locals) (p : cstr) : locals :=
  Locals p (sys_dev l) (map_name l) (keyfiles l) (h_keyfiles l)
    (nkeyfiles l) (n_hkeyfiles l) (sflag l) (info_vol l) (map_vol l)
    (protect_hidden l) (create_vol l) (contain_hidden l) (prf l) (cipher_chain l).

Definition set_protect_hidden (l : locals) (v : Z) : locals :=
  Locals (dev l) (sys_dev l) (map_name l) (keyfiles l) (h_keyfiles l)
    (nkeyfiles l) (n_hkeyfiles l) (sflag l) (info_vol l) (map_vol l)
    v (create_vol l) (contain_hidden l) (prf l) (cipher_chain l).

Definition set_h_keyfiles (l : locals) (a : list slot) (n : Z) : locals :=
  Locals (dev l) (sys_dev l) (map_name l) (keyfiles l) a
    (nkeyfiles l) n (sflag l) (info_vol l) (map_vol l)
    (protect_hidden l) (create_vol l) (contain_hidden l) (prf l) (cipher_chain l).

Definition set_contain_hidden (l : locals) (v : Z) : locals :=
  Locals (dev l) (sys_dev l) (map_name l) (keyfiles l) (h_keyfiles l)
    (nkeyfiles l) (n_hkeyfiles l) (sflag l) (info_vol l) (map_vol l)
    (protect_hidden l) (create_vol l) v (prf l) (cipher_chain l).

Definition set_info_vol (l : locals) (v : Z) : locals :=
  Locals (dev l) (sys_dev l) (map_name l) (keyfiles l) (h_keyfiles l)
    (nkeyfiles l) (n_hkeyfiles l) (sflag l) v (map_vol l)
    (protect_hidden l) (create_vol l) (contain_hidden l) (prf l) (cipher_chain l).

Definition set_keyfiles (l : locals) (a : list slot) (n : Z) : locals :=
  Locals (dev l) (sys_dev l) (map_name l) a (h_keyfiles l)
    n (n_hkeyfiles l) (sflag l) (info_vol l) (map_vol l)
    (protect_hidden l) (create_vol l) (contain_hidden l) (prf l) (cipher_chain l).

Definition set_map (l : locals) (v : Z) (p : cstr) : locals :=
  Locals (dev l) (sys_dev l) p (keyfiles l) (h_keyfiles l)
    (nkeyfiles l) (n_hkeyfiles l) (sflag l) (info_vol l) v
    (protect_hidden l) (create_vol l) (contain_hidden l) (prf l) (cipher_chain l).

Definition set_sys (l : locals) (v : Z) (p : cstr) : locals :=
  Locals (dev l) p (map_name l) (keyfiles l) (h_keyfiles l)
    (nkeyfiles l) (n_hkeyfiles l) v (info_vol l) (map_vol l)
    (protect_hidden l) (create_vol l) (contain_hidden l) (prf l) (cipher_chain l).

(** *** The option loop *)

(** The state after one pass of the loop body: either the loop goes on
    with new locals, or the process has ended. *)
Inductive step : Type :=
| Next (l : locals)
| Halt (t : list event) (o : outcome).

(** usage(): print the text and exit(1). *)
Definition usage : step := Halt [EUsage] (Exit 1).

(** [arr[n++] = p] on an array declared with [MAX_KEYFILES] elements. *)
Definition store_incr (arr : list slot) (n : Z) (p : cstr)
  : undefined + (list slot * Z) :=
  if (0 <=? n) && (n <? MAX_KEYFILES) then
    if n <? INT_MAX then inr (<[Z.to_nat n := Stored p]> arr, n + 1)
    else inl SignedOverflow
  else inl OutOfBounds.

(** The body of the [switch] for one result of [getopt_long]. *)
Definition opt_step (l : locals) (e : opt_event) : step :=
  match switch (ch e) with
  | Case_a =>
      if non_null (prf l) then usage else
      match optarg e with
      | None => Halt [] (Undef NullDeref)
      | Some s =>
          match check_prf_algo s 0 with
          | Some p => Next (set_prf l (Some p))
          | None => if String.eqb s "help" then Halt [] (Exit 0) else usage
          end
      end
  | Case_b =>
      if non_null (cipher_chain l) then usage else
      match optarg e with
      | None => Halt [] (Undef NullDeref)
      | Some s =>
          match check_cipher_chain s 0 with
          | Some c => Next (set_cipher_chain l (Some c))
          | None => if String.eqb s "help" then Halt [] (Exit 0) else usage
          end
      end
  | Case_c => Next (set_create_vol l 1)
  | Case_d => Next (set_dev l (optarg e))
  | Case_e => Next (set_protect_hidden l 1)
  | Case_f =>
      match store_incr (h_keyfiles l) (n_hkeyfiles l) (optarg e) with
      | inr (a, n) => Next (set_h_keyfiles l a n)
      | inl u => Halt [] (Undef u)
      end
  | Case_g => Next (set_contain_hidden l 1)
  | Case_i => Next (set_info_vol l 1)
  | Case_k =>
      match store_incr (keyfiles l) (nkeyfiles l) (optarg e) with
      | inr (a, n) => Next (set_keyfiles l a n)
      | inl u => Halt [] (Undef u)
      end
  | Case_m => Next (set_map l 1 (optarg e))
  | Case_s => Next (set_sys l 1 (optarg e))
  | Case_v => Halt [EVersion MAJ_VER MIN_VER] (Exit 0)
  | Case_default => usage
  end.

(** [while ((ch = getopt_long(...)) != -1) switch (ch) ...]. *)
Fixpoint parse (evs : list opt_event) (l : locals) : step :=
  match evs with
  | [] => Next l
  | e :: rest =>
      match opt_step l e with
      | Next l' => parse rest l'
      | Halt t o => Halt t o
      end
  end.

(** *** Check arguments *)

(** The condition of the [if] that guards usage() after the loop. *)
Definition bad_arguments (l : locals) : bool :=
  negb ((truthy (map_vol l) || truthy (info_vol l) || truthy (create_vol l))
        && non_null (dev l))
  || (truthy (map_vol l) && truthy (info_vol l))
  || (truthy (map_vol l) && truthy (create_vol l))
  || (truthy (create_vol l) && truthy (info_vol l))
  || (truthy (contain_hidden l) && negb (truthy (create_vol l)))
  || (truthy (sflag l) && negb (non_null (sys_dev l)))
  || (truthy (map_vol l) && negb (non_null (map_name l)))
  || (negb (truthy (protect_hidden l) || truthy (create_vol l))
      && (0 <? n_hkeyfiles l)).

(** *** Dispatch *)

Definition create_call (l : locals) : create_volume_args :=
  CreateArgs (dev l) (contain_hidden l) (keyfiles l) (nkeyfiles l)
    (h_keyfiles l) (n_hkeyfiles l) (prf l) (cipher_chain l) None None 0 1.

Definition info_call (l : locals) : info_volume_args :=
  InfoArgs (dev l) (sflag l) (sys_dev l) (protect_hidden l)
    (keyfiles l) (nkeyfiles l) (h_keyfiles l) (n_hkeyfiles l) None None
    1 DEFAULT_RETRIES.

Definition map_call (l : locals) : map_volume_args :=
  MapArgs (map_name l) (dev l) (sflag l) (sys_dev l) (protect_hidden l)
    (keyfiles l) (nkeyfiles l) (h_keyfiles l) (n_hkeyfiles l) None None
    1 DEFAULT_RETRIES.

(** The [if (create_vol) ... else if (info_vol) ... else if (map_vol) ...]
    chain and [return error]. *)
Definition dispatch (l : locals) : run :=
  if truthy (create_vol l) then
    let error := create_volume (create_call l) in
    if truthy error
    then ([ECall (CreateVolume (create_call l)); ELog (dev l)], Return error)
    else ([ECall (CreateVolume (create_call l))], Return error)
  else if truthy (info_vol l) then
    ([ECall (InfoVolume (info_call l))], Return (info_volume (info_call l)))
  else if truthy (map_vol l) then
    ([ECall (MapVolume (map_call l))], Return (map_volume (map_call l)))
  else ([], Undef UninitRead).

(** *** main *)

Definition startup : list event := [EInit; ESignal SIGUSR1; ESignal SIGINFO].

Definition main (evs : list opt_event) : run :=
  match parse evs init with
  | Halt t o => (startup ++ t, o)
  | Next l =>
      if bad_arguments l then (startup ++ [EUsage], Exit 1)
      else (startup ++ fst (dispatch l), snd (dispatch l))
  end.

(** The engine operations a run invokes, in order. *)
Definition engine_calls (t : list event) : list engine_call :=
  omap (fun ev => match ev with ECall c => Some c | _ => None end) t.

(** The engine operation the dispatch chain selects. *)
Definition selected (l : locals) : option engine_call :=
  if truthy (create_vol l) then Some (CreateVolume (create_call l))
  else if truthy (info_vol l) then Some (InfoVolume (info_call l))
  else if truthy (map_vol l) then Some (MapVolume (map_call l))
  else None.

(** The option loop ran to its end with locals [l] and the argument check
    let them through. *)
Definition validated (evs : list opt_event) (l : locals) : Prop :=
  parse evs init = Next l /\ bad_arguments l = false.

(** *** What an engine operation is handed *)

Definition call_keyfiles (c : engine_call) : list slot :=
  match c with
  | CreateVolume a => cv_keyfiles a
  | InfoVolume a => iv_keyfiles a
  | MapVolume a => mv_keyfiles a
  end.

Definition call_nkeyfiles (c : engine_call) : Z :=
  match c with
  | CreateVolume a => cv_nkeyfiles a
  | InfoVolume a => iv_nkeyfiles a
  | MapVolume a => mv_nkeyfiles a
  end.

Definition call_h_keyfiles (c : engine_call) : list slot :=
  match c with
  | CreateVolume a => cv_h_keyfiles a
  | InfoVolume a => iv_h_keyfiles a
  | MapVolume a => mv_h_keyfiles a
  end.

Definition call_n_hkeyfiles (c : engine_call) : Z :=
  match c with
  | CreateVolume a => cv_n_hkeyfiles a
  | InfoVolume a => iv_n_hkeyfiles a
  | MapVolume a => mv_n_hkeyfiles a
  end.

(** The PRF selection an operation receives: only [create_volume] has such
    a parameter. *)
Definition call_prf (c : engine_call) : option pbkdf_prf_algo :=
  match c with
  | CreateVolume a => cv_prf a
  | InfoVolume _ | MapVolume _ => None
  end.

(** The cipher-chain selection an operation receives. *)
Definition call_cipher_chain (c : engine_call) : option tc_cipher_chain :=
  match c with
  | CreateVolume a => cv_cipher_chain a
  | InfoVolume _ | MapVolume _ => None
  end.

(** Exactly one of three conditions holds. *)
Definition exactly_one (a b c : bool) : bool :=
  match a, b, c with
  | true, false, false | false, true, false | false, false, true => true
  | _, _, _ => false
  end.

(** The mode an operation belongs to, as (create, info, map). *)
Definition mode_of (c : engine_call) : bool * bool * bool :=
  match c with
  | CreateVolume _ => (true, false, false)
  | InfoVolume _ => (false, true, false)
  | MapVolume _ => (false, false, true)
  end.

(** The shape of the two arrays: a counter that is not negative and the declared
    number of elements. *)
Definition array_ok (arr : list slot) (n : Z) : Prop :=
  0 <= n /\ length arr = Z.to_nat MAX_KEYFILES.

(** An option that can end the process with [exit(0)]: [-v], or [-a]/[-b]
    with the argument [help]. *)
Definition exit0_option (e : opt_event) : bool :=
  match switch (ch e) with
  | Case_v => true
  | Case_a | Case_b =>
      match optarg e with Some s => String.eqb s "help" | None => false end
  | _ => false
  end.

(** The retry bound an operation receives: [create_volume] has none. *)
Definition call_retries (c : engine_call) : option Z :=
  match c with
  | CreateVolume _ => None
  | InfoVolume a => Some (iv_retries a)
  | MapVolume a => Some (mv_retries a)
  end.

(** The interactive flag an operation receives. *)
Definition call_interactive (c : engine_call) : Z :=
  match c with
  | CreateVolume a => cv_interactive a
  | InfoVolume a => iv_interactive a
  | MapVolume a => mv_interactive a
  end.

(** The device path an operation receives. *)
Definition call_dev (c : engine_call) : cstr :=
  match c with
  | CreateVolume a => cv_dev a
  | InfoVolume a => iv_dev a
  | MapVolume a => mv_dev a
  end.

(** The flags and names an operation receives beside the device and the
    keyfiles: the hidden-volume flag of [create_volume]; the
    system-encryption flag, the system device and the protect-hidden flag of
    [info_volume] and [map_volume]; the mapping name of [map_volume]. *)
Definition call_hidden (c : engine_call) : option Z :=
  match c with CreateVolume a => Some (cv_hidden a) | _ => None end.

Definition call_sflag (c : engine_call) : option Z :=
  match c with
  | CreateVolume _ => None
  | InfoVolume a => Some (iv_sflag a)
  | MapVolume a => Some (mv_sflag a)
  end.

Definition call_sys_dev (c : engine_call) : option cstr :=
  match c with
  | CreateVolume _ => None
  | InfoVolume a => Some (iv_sys_dev a)
  | MapVolume a => Some (mv_sys_dev a)
  end.

Definition call_protect_hidden (c : engine_call) : option Z :=
  match c with
  | CreateVolume _ => None
  | InfoVolume a => Some (iv_protect_hidden a)
  | MapVolume a => Some (mv_protect_hidden a)
  end.

Definition call_map_name (c : engine_call) : option cstr :=
  match c with MapVolume a => Some (mv_map_name a) | _ => None end.

(** What follows the engine call in the trace: the [tc_log] of a failed
    [create_volume]. *)
Definition log_after (c : engine_call) : list event :=
  match c with
  | CreateVolume a =>
      if truthy (create_volume a) then [ELog (cv_dev a)] else []
  | InfoVolume _ | MapVolume _ => []
  end.

(** The run ends in usage(). *)
Definition through_usage (r : run) : Prop :=
  exists t, fst r = t ++ [EUsage] /\ snd r = Exit 1.

End Tc_play.

(** * The engine behind the calls

    [create_volume], [info_volume] and [map_volume] are declared in
    [tc-play.h] and defined outside [main.c].  What the properties below
    need of them is modelled from the specification of the engine. *)

(** ** Volume Prober: the interactive retry loop *)

Module Prober.

(** How a probe ends. *)
Inductive probe_result (V : Type) : Type :=
| Unlocked (v : V)
| AuthenticationFailed.
Arguments Unlocked {V} v.
Arguments AuthenticationFailed {V}.

Section Retry.
Context {V P : Type}.

(** One pass over every candidate (PRF, cipher chain) pair with the
    passphrase at hand: the unlocked volume, or none. *)
Variable probe_once : P -> option V.

(** The passphrase typed at the [n]-th prompt. *)
Variable prompt : nat -> P.

(** Modelled from the spec: the retry loop of [info_volume] and
    [map_volume] on interactive use (Volume Prober, section 4.4), which is
    not in [main.c].  A pass that finds no valid header triggers a fresh
    prompt and the whole probe repeats, bounded by [retries]; after
    [retries] consecutive failures the probe fails with
    [AuthenticationFailed].  The first component counts the prompts. *)
Fixpoint retry_loop (retries : nat) (asked : nat) : nat * probe_result V :=
  match retries with
  | O => (asked, AuthenticationFailed)
  | S r =>
      match probe_once (prompt asked) with
      | Some v => (S asked, Unlocked v)
      | None => retry_loop r (S asked)
      end
  end.

(** Modelled from the spec: the probe as [info_volume] and [map_volume],
    which are not in [main.c], run it with their [retries] argument
    (section 4.4). *)
Definition probe_interactive (retries : Z) : nat * probe_result V :=
  retry_loop (Z.to_nat retries) 0.

End Retry.
End Prober.

(** ** Volume Header Codec *)

Module Codec.

(** Modelled from the spec: the Volume Header in its decoded form (section
    3), with the second CRC field its invariant speaks of. *)
Record volume_header : Type := VolumeHeader {
  magic : list byte;
  version : N;
  min_version : N;
  enc_area_start : N;
  enc_area_size : N;
  master_keys : list byte;
  sector_size : N;
  iv_seed : list byte;
  keys_crc : N;
  flags : N;
  header_crc : N }.

(** The fields of the layout. *)
Inductive field : Type :=
| F_magic | F_version | F_min_version | F_enc_area_start | F_enc_area_size
| F_master_keys | F_sector_size | F_iv_seed | F_keys_crc | F_flags
| F_header_crc.

(** The fixed order of the fields. *)
Definition fields : list field :=
  [ F_magic; F_version; F_min_version; F_enc_area_start; F_enc_area_size;
    F_master_keys; F_sector_size; F_iv_seed; F_keys_crc; F_flags;
    F_header_crc ].

Definition field_index (f : field) : nat :=
  match f with
  | F_magic => 0 | F_version => 1 | F_min_version => 2
  | F_enc_area_start => 3 | F_enc_area_size => 4 | F_master_keys => 5
  | F_sector_size => 6 | F_iv_seed => 7 | F_keys_crc => 8 | F_flags => 9
  | F_header_crc => 10
  end.

#[export] Instance byte_eq_decision : EqDecision byte := Byte.byte_eq_dec.

(** The byte with value [n mod 256]. *)
Definition byte_of_N (n : N) : byte :=
  match Byte.of_N (n mod 256) with Some b => b | None => x00 end.

(** A number in [w] bytes, most significant byte first. *)
Fixpoint be_bytes (w : nat) (n : N) : list byte :=
  match w with
  | O => []
  | S w' => byte_of_N (n / 256 ^ N.of_nat w') :: be_bytes w' n
  end.

Definition be_value (bs : list byte) : N :=
  fold_left (fun acc b => (acc * 256 + Byte.to_N b)%N) bs 0%N.

(** [n] is representable in [w] bytes. *)
Definition fits (w : nat) (n : N) : Prop := (n < 256 ^ N.of_nat w)%N.

(** A reader of a prefix of the input. *)
Definition parser (A : Type) : Type := list byte -> option (A * list byte).

#[export] Instance parser_ret : MRet parser := fun A x bs => Some (x, bs).

#[export] Instance parser_bind : MBind parser := fun A B f m bs =>
  match m bs with
  | Some (x, rest) => f x rest
  | None => None
  end.

Definition read_bytes (w : nat) : parser (list byte) := fun bs =>
  if decide (w <= length bs)%nat then Some (take w bs, drop w bs) else None.

Definition read_int (w : nat) : parser N :=
  bs ← read_bytes w; mret (be_value bs).

(** What the spec leaves to the foreign format: the width of each field,
    the reserved bytes that follow it, the magic tag, the checksum and the
    fields the header checksum covers. *)
Class header_format : Type := {
  width : field -> nat;
  reserved_after : field -> nat;
  MAGIC : list byte;
  crc32 : list byte -> N;
  header_crc_fields : list field }.

(** What the codec consumes of the Key Derivation Engine and of the Cascade
    Cipher Engine: the Key Material derived for each PRF from the passphrase,
    keyfiles and salt at hand, and each cipher in XTS mode. *)
Class cipher_engine : Type := {
  prf_algo : Type;
  cipher_id : Type;
  key_material : prf_algo -> list byte;
  key_length : cipher_id -> nat;
  xts_encrypt : cipher_id -> list byte -> N -> list byte -> list byte;
  xts_decrypt : cipher_id -> list byte -> N -> list byte -> list byte;
  header_sector : N;
  salt : list byte }.

Section Codec.
Context {fmt : header_format} {ce : cipher_engine}.

Definition field_bytes (h : volume_header) (f : field) : list byte :=
  match f with
  | F_magic => magic h
  | F_version => be_bytes (width f) (version h)
  | F_min_version => be_bytes (width f) (min_version h)
  | F_enc_area_start => be_bytes (width f) (enc_area_start h)
  | F_enc_area_size => be_bytes (width f) (enc_area_size h)
  | F_master_keys => master_keys h
  | F_sector_size => be_bytes (width f) (sector_size h)
  | F_iv_seed => iv_seed h
  | F_keys_crc => be_bytes (width f) (keys_crc h)
  | F_flags => be_bytes (width f) (flags h)
  | F_header_crc => be_bytes (width f) (header_crc h)
  end.

(** A field followed by its reserved bytes, zero-filled. *)
Definition segment (h : volume_header) (f : field) : list byte :=
  field_bytes h f ++ replicate (reserved_after f) x00.

(** Modelled from the spec: the header in the clear, as [encode] lays it
    out (section 4.3: fixed-width fields in fixed order, reserved regions
    zero-filled); the codec is not in [main.c]. *)
Definition header_plain (h : volume_header) : list byte :=
  concat (segment h <$> fields).

Definition region_size (fs : list field) : nat :=
  sum_list ((fun f => width f + reserved_after f)%nat <$> fs).

(** The fixed size of the encrypted region. *)
Definition plain_size : nat := region_size fields.

(** Where the reserved bytes after field [f] start. *)
Definition reserved_offset (f : field) : nat :=
  (region_size (take (field_index f) fields) + width f)%nat.

(** Modelled from the spec: the reserved region after field [f] of the
    layout, read in a buffer of the size of the header (section 4.3); the
    codec is not in [main.c]. *)
Definition reserved_region (f : field) (plain : list byte) : list byte :=
  take (reserved_after f) (drop (reserved_offset f) plain).

Definition bytes_field (f : field) : parser (list byte) :=
  bs ← read_bytes (width f); _ ← read_bytes (reserved_after f); mret bs.

Definition int_field (f : field) : parser N :=
  n ← read_int (width f); _ ← read_bytes (reserved_after f); mret n.

(** Modelled from the spec: the reading of the fields that decoding does,
    the inverse of [header_plain] (section 4.3); the codec is not in
    [main.c]. *)
Definition parse_header : parser volume_header :=
  m ← bytes_field F_magic;
  v ← int_field F_version;
  mv ← int_field F_min_version;
  st ← int_field F_enc_area_start;
  sz ← int_field F_enc_area_size;
  ks ← bytes_field F_master_keys;
  ss ← int_field F_sector_size;
  iv ← bytes_field F_iv_seed;
  kc ← int_field F_keys_crc;
  fl ← int_field F_flags;
  hc ← int_field F_header_crc;
  mret (VolumeHeader m v mv st sz ks ss iv kc fl hc).

(** The bytes the header checksum is taken over. *)
Definition crc_input (h : volume_header) : list byte :=
  concat (field_bytes h <$> header_crc_fields).

(** Modelled from the spec: the validity check of a decoded header, which
    is not in [main.c]: the magic tag and both CRC fields match (section
    3). *)
Definition checks (h : volume_header) : bool :=
  bool_decide (magic h = MAGIC)
  && (keys_crc h =? crc32 (master_keys h))%N
  && (header_crc h =? crc32 (crc_input h))%N.

(** A valid header: it passes the validity check and every field has the
    width of its place in the layout. *)
Record valid_header (h : volume_header) : Prop := {
  valid_magic : magic h = MAGIC;
  valid_magic_width : length (magic h) = width F_magic;
  valid_version : fits (width F_version) (version h);
  valid_min_version : fits (width F_min_version) (min_version h);
  valid_enc_area_start : fits (width F_enc_area_start) (enc_area_start h);
  valid_enc_area_size : fits (width F_enc_area_size) (enc_area_size h);
  valid_master_keys : length (master_keys h) = width F_master_keys;
  valid_sector_size : fits (width F_sector_size) (sector_size h);
  valid_iv_seed : length (iv_seed h) = width F_iv_seed;
  valid_keys_crc_width : fits (width F_keys_crc) (keys_crc h);
  valid_flags : fits (width F_flags) (flags h);
  valid_header_crc_width : fits (width F_header_crc) (header_crc h);
  valid_keys_crc : keys_crc h = crc32 (master_keys h);
  valid_header_crc : header_crc h = crc32 (crc_input h) }.

(** Modelled from the spec: the Cascade Cipher Engine (section 4.2).  The
    chain is applied outer cipher first on encryption, each cipher with its
    slice of the combined key. *)
Fixpoint encrypt_sector (chain : list cipher_id) (key : list byte) (sector : N)
    (plain : list byte) : list byte :=
  match chain with
  | [] => plain
  | c :: inner =>
      encrypt_sector inner (drop (key_length c) key) sector
        (xts_encrypt c (take (key_length c) key) sector plain)
  end.

(** Modelled from the spec: the Cascade Cipher Engine on decryption,
    innermost cipher first (section 4.2); it is not in [main.c]. *)
Fixpoint decrypt_sector (chain : list cipher_id) (key : list byte) (sector : N)
    (ct : list byte) : list byte :=
  match chain with
  | [] => ct
  | c :: inner =>
      xts_decrypt c (take (key_length c) key) sector
        (decrypt_sector inner (drop (key_length c) key) sector ct)
  end.

(** Modelled from the spec: [encode] of section 4.3. *)
Definition encode (h : volume_header) (p : prf_algo) (chain : list cipher_id)
  : list byte :=
  salt ++ encrypt_sector chain (key_material p) header_sector (header_plain h).

(** Modelled from the spec: the fixed-size encrypted region that decoding
    strips from the raw header bytes (section 4.3); the codec is not in
    [main.c]. *)
Definition encrypted_region (raw : list byte) : list byte :=
  take plain_size (drop (length salt) raw).

Definition decrypted_region (raw : list byte) (p : prf_algo)
    (chain : list cipher_id) : list byte :=
  decrypt_sector chain (key_material p) header_sector (encrypted_region raw).

(** Modelled from the spec: decoding with one trial (PRF, cipher chain)
    pair (section 4.3): strip the encrypted region, decrypt it, read the
    fields and check magic and CRCs. *)
Definition decode (raw : list byte) (p : prf_algo) (chain : list cipher_id)
  : option volume_header :=
  match parse_header (decrypted_region raw p chain) with
  | Some (h, _) => if checks h then Some h else None
  | None => None
  end.

Fixpoint first_some {A B : Type} (f : A -> option B) (l : list A) : option B :=
  match l with
  | [] => None
  | x :: rest =>
      match f x with
      | Some y => Some y
      | None => first_some f rest
      end
  end.

(** Modelled from the spec: [try_decode] over the candidates, PRF outer,
    cipher chain inner (sections 4.3 and 4.4). *)
Definition try_decode (raw : list byte) (prfs : list prf_algo)
    (chains : list (list cipher_id)) : option volume_header :=
  first_some (fun p => first_some (fun c => decode raw p c) chains) prfs.

End Codec.
End Codec.

(** ** Hidden-Volume Protector *)

Module Protector.
Import Codec.

(** What a write to the mapping reports. *)
Inductive io_result : Type :=
| IoOk
| IoError.     (* a benign I/O error *)

(** The active mapping of the outer volume: the bytes it exposes, by byte
    offset, and its optional write ceiling. *)
Record mapping : Type := Mapping {
  contents : gmap N byte;
  write_ceiling : option N }.

(** Modelled from the spec: [protected_offset] of section 4.5, the start of
    the encrypted area of the hidden header when one was decrypted. *)
Definition protected_offset (hidden : option volume_header) : option N :=
  enc_area_start <$> hidden.

(** Modelled from the spec: activation of the outer volume with the
    optional write ceiling of section 4.6; [map_volume] is not in
    [main.c]. *)
Definition activate (device : gmap N byte) (hidden : option volume_header)
  : mapping :=
  Mapping device (protected_offset hidden).

(** Modelled from the spec: one write of a byte at a byte offset of the
    mapping.  At or beyond the ceiling it is rejected with an I/O error and
    not applied; otherwise it is applied. *)
Definition write (m : mapping) (off : N) (b : byte) : io_result * mapping :=
  match write_ceiling m with
  | Some H =>
      if (H <=? off)%N then (IoError, m)
      else (IoOk, Mapping (<[off := b]> (contents m)) (write_ceiling m))
  | None => (IoOk, Mapping (<[off := b]> (contents m)) (write_ceiling m))
  end.

(** Modelled from the spec: a sequence of writes to the mapping, which is
    not in [main.c], in the order in which the mapping serves them (section
    4.5). *)
Fixpoint write_all (m : mapping) (ws : list (N * byte))
  : list io_result * mapping :=
  match ws with
  | [] => ([], m)
  | (off, b) :: rest =>
      let r := write m off b in
      let rs := write_all (snd r) rest in
      (fst r :: fst rs, snd rs)
  end.

End Protector.

(** * A sample configuration and sample command lines *)

Module Sample.

(** A [tc-play.h] with one PRF and two cipher chains in its registries,
    entries standing for themselves. *)
Definition tc_play : tc_play_h := {|
  pbkdf_prf_algo := string;
  tc_cipher_chain := string;
  MAX_KEYFILES := 256;
  DEFAULT_RETRIES := 3;
  MAJ_VER := 1;
  MIN_VER := 0;
  check_prf_algo := fun name _ =>
    if String.eqb name "SHA-512" then Some name else None;
  check_cipher_chain := fun name _ =>
    if String.eqb name "AES" || String.eqb name "AES-TWOFISH"
    then Some name else None |}.

Definition signals : signal_h := {| SIGUSR1 := 30; SIGINFO := 29 |}.

(** An engine in which creation succeeds and info and map fail. *)
Definition engine_run : @engine tc_play := {|
  create_volume := fun _ => 0;
  info_volume := fun _ => -1;
  map_volume := fun _ => -1 |}.

(** tc-play -i -d /dev/da0 -k a.key --keyfile=b.key *)
Definition cmd_info : list opt_event :=
  getopt_long ["-i"; "-d"; "/dev/da0"; "-k"; "a.key"; "--keyfile=b.key"]%string.

(** tc-play -c -d /dev/da0 -a SHA-512 -b AES *)
Definition cmd_create : list opt_event :=
  getopt_long ["-c"; "-d"; "/dev/da0"; "-a"; "SHA-512"; "-b"; "AES"]%string.

(** tc-play -i -d /dev/da0 -a SHA-512 *)
Definition cmd_info_prf : list opt_event :=
  getopt_long ["-i"; "-d"; "/dev/da0"; "-a"; "SHA-512"]%string.

(** tc-play -m vol -d /dev/da0 -e --keyfile-hidden h.key *)
Definition cmd_map : list opt_event :=
  getopt_long ["-m"; "vol"; "-d"; "/dev/da0"; "-e"; "--keyfile-hidden"; "h.key"]%string.

(** tc-play -m vol -d /dev/da0 -e -f h.key *)
Definition cmd_map_short : list opt_event :=
  getopt_long ["-m"; "vol"; "-d"; "/dev/da0"; "-e"; "-f"; "h.key"]%string.

(** tc-play -a SHA-512 -a SHA-512 -i -d /dev/da0 *)
Definition cmd_twice : list opt_event :=
  getopt_long ["-a"; "SHA-512"; "-a"; "SHA-512"; "-i"; "-d"; "/dev/da0"]%string.

(** tc-play -v -a SHA-512 -a SHA-512 *)
Definition cmd_version_twice : list opt_event :=
  getopt_long ["-v"; "-a"; "SHA-512"; "-a"; "SHA-512"]%string.

(** tc-play -k a.key ... -k a.key -i -d /dev/da0, with 257 times -k *)
Definition cmd_many_keyfiles : list opt_event :=
  getopt_long (concat (repeat ["-k"; "a.key"]%string 257)
               ++ ["-i"; "-d"; "/dev/da0"]%string).

(** tc-play -i -c -d /dev/da0 *)
Definition cmd_two_modes : list opt_event :=
  getopt_long ["-i"; "-c"; "-d"; "/dev/da0"]%string.

(** tc-play -d /dev/da0 -i -d /dev/da1 -e -s /dev/da *)
Definition cmd_two_devices : list opt_event :=
  getopt_long ["-d"; "/dev/da0"; "-i"; "-d"; "/dev/da1"; "-e"; "-s"; "/dev/da"]%string.

(** tc-play -i -d /dev/da0 *)
Definition cmd_info_dev : list opt_event :=
  getopt_long ["-i"; "-d"; "/dev/da0"]%string.

(** The locals at the end of the option loop. *)
Definition parsed (evs : list opt_event) : @locals tc_play :=
  match @parse tc_play evs (@init tc_play) with
  | Next l => l
  | Halt _ _ => @init tc_play
  end.

(** A header layout with reserved bytes after the version fields and after
    the flags. *)
Definition format : Codec.header_format := {|
  Codec.width := fun f =>
    match f with
    | Codec.F_magic => 4 | Codec.F_version => 2 | Codec.F_min_version => 2
    | Codec.F_enc_area_start => 8 | Codec.F_enc_area_size => 8
    | Codec.F_master_keys => 8 | Codec.F_sector_size => 4
    | Codec.F_iv_seed => 4 | Codec.F_keys_crc => 4 | Codec.F_flags => 4
    | Codec.F_header_crc => 4
    end%nat;
  Codec.reserved_after := fun f =>
    match f with
    | Codec.F_min_version => 16 | Codec.F_flags => 12 | _ => 0
    end%nat;
  Codec.MAGIC := [x54; x52; x55; x45];
  Codec.crc32 := fun bs =>
    (fold_left (fun acc b => acc * 31 + Byte.to_N b) bs 7 mod 2 ^ 32)%N;
  Codec.header_crc_fields :=
    [ Codec.F_magic; Codec.F_version; Codec.F_min_version;
      Codec.F_enc_area_start; Codec.F_enc_area_size; Codec.F_sector_size;
      Codec.F_flags ] |}.

(** The shift a sample cipher applies to every byte of a sector. *)
Definition shift (c : N) (key : list byte) (sector : N) : N :=
  ((c + sector + fold_left (fun acc b => acc + Byte.to_N b) key 0) mod 256)%N.

(** Ciphers that add a key- and sector-dependent shift to every byte. *)
Definition ciphers : Codec.cipher_engine := {|
  Codec.prf_algo := string;
  Codec.cipher_id := N;
  Codec.key_material := fun p =>
    Codec.be_bytes 6 (N.of_nat (String.length p) * 1234567 + 89)%N;
  Codec.key_length := fun _ => 2%nat;
  Codec.xts_encrypt := fun c key sector plain =>
    (fun b => Codec.byte_of_N (Byte.to_N b + shift c key sector)) <$> plain;
  Codec.xts_decrypt := fun c key sector ct =>
    (fun b => Codec.byte_of_N (Byte.to_N b + (256 - shift c key sector))) <$> ct;
  Codec.header_sector := 0%N;
  Codec.salt := [x01; x02; x03; x04; x05; x06; x07; x08] |}.

(** A header of the sample layout. *)
Definition volume (start : N) : Codec.volume_header :=
  let keys := [x10; x32; x54; x76; x98; xba; xdc; xfe] in
  let h := Codec.VolumeHeader [x54; x52; x55; x45] 5 7 start 1048576 keys 512
             [xaa; xbb; xcc; xdd] (@Codec.crc32 format keys) 1 0 in
  Codec.VolumeHeader [x54; x52; x55; x45] 5 7 start 1048576 keys 512
    [xaa; xbb; xcc; xdd] (@Codec.crc32 format keys) 1
    (@Codec.crc32 format (@Codec.crc_input format h)).

(** Eight bytes of an outer volume. *)
Definition device : gmap N byte :=
  list_to_map (zip (N.of_nat <$> seq 4092 8) [x61; x62; x63; x64; x65; x66; x67; x68]).

End Sample.

(** * Properties of main.c *)

Section Tc_play_properties.
Context {tch : tc_play_h} {sigh : signal_h} {eng : engine}.

(** ** The switch *)

Lemma switch_spec (c : Z) (k : opt_case) (a : ascii) :
  switch (chr a) = k -> k <> Case_default -> switch c = k <-> c = chr a.
Proof.
  intros Hk Hd. split.
  - intros Hc. subst k. revert Hc Hd. unfold switch.
    repeat (case (Z.eqb_spec c _); [intros -> | intros _]);
      repeat (case (Z.eqb_spec (chr a) _); [intros -> | intros _]);
      try reflexivity; try discriminate; congruence.
  - intros ->. exact Hk.
Qed.

Lemma switch_a c : switch c = Case_a <-> c = chr "a".
Proof. now apply switch_spec. Qed.
Lemma switch_b c : switch c = Case_b <-> c = chr "b".
Proof. now apply switch_spec. Qed.
Lemma switch_f c : switch c = Case_f <-> c = chr "f".
Proof. now apply switch_spec. Qed.
Lemma switch_k c : switch c = Case_k <-> c = chr "k".
Proof. now apply switch_spec. Qed.

(** ** getopt_long *)

(** Each long option comes back as the character of a short option; the
    short form takes an argument exactly when the long form requires one,
    except for [f], which takes none as a short option, and [h], which
    takes one. *)
Lemma longopts_short_forms :
  long_val "keyfile" = Some (chr "k")
  /\ long_val "keyfile-hidden" = Some (chr "f")
  /\ long_val "pbkdf-prf" = Some (chr "a")
  /\ long_val "cipher" = Some (chr "b")
  /\ short_option optstring "k" = Some true
  /\ short_option optstring "f" = Some false
  /\ short_option optstring "h" = Some true.
Proof. repeat split. Qed.

(** ** From the trace of main back to the locals *)

Lemma engine_calls_startup (t : list event) :
  engine_calls (startup ++ t) = engine_calls t.
Proof. reflexivity. Qed.

Lemma dispatch_selected (l : locals) :
  match selected l with
  | Some c => engine_calls (fst (dispatch l)) = [c]
              /\ snd (dispatch l) = Return (engine_result c)
  | None => dispatch l = ([], Undef UninitRead)
  end.
Proof.
  unfold selected, dispatch.
  destruct (truthy (create_vol l)).
  - destruct (truthy (create_volume (create_call l))); split; reflexivity.
  - destruct (truthy (info_vol l)); [split; reflexivity |].
    destruct (truthy (map_vol l)); [split; reflexivity | reflexivity].
Qed.

(** What the argument check establishes when it lets the locals through. *)
Lemma bad_arguments_false (l : locals) :
  bad_arguments l = false ->
  (truthy (map_vol l) || truthy (info_vol l) || truthy (create_vol l) = true)
  /\ non_null (dev l) = true
  /\ truthy (map_vol l) && truthy (info_vol l) = false
  /\ truthy (map_vol l) && truthy (create_vol l) = false
  /\ truthy (create_vol l) && truthy (info_vol l) = false
  /\ (truthy (contain_hidden l) = true -> truthy (create_vol l) = true)
  /\ (truthy (sflag l) = true -> non_null (sys_dev l) = true)
  /\ (truthy (map_vol l) = true -> non_null (map_name l) = true)
  /\ (0 < n_hkeyfiles l ->
      truthy (protect_hidden l) || truthy (create_vol l) = true).
Proof.
  unfold bad_arguments. intros Hb.
  repeat (apply orb_false_iff in Hb; destruct Hb as [Hb ?]).
  apply negb_false_iff, andb_true_iff in Hb. destruct Hb as [Hm Hd].
  repeat split; try assumption.
  - intros Hc. rewrite Hc in *. simpl in *.
    destruct (truthy (create_vol l)); [reflexivity | discriminate].
  - intros Hs. rewrite Hs in *. simpl in *.
    destruct (non_null (sys_dev l)); [reflexivity | discriminate].
  - intros Hs. rewrite Hs in *. simpl in *.
    destruct (non_null (map_name l)); [reflexivity | discriminate].
  - intros Hn. apply Z.ltb_lt in Hn. rewrite Hn in *.
    destruct (truthy (protect_hidden l) || truthy (create_vol l));
      [reflexivity | discriminate].
Qed.

Lemma validated_selected (evs : list opt_event) (l : locals) :
  validated evs l -> exists c, selected l = Some c.
Proof.
  intros [_ Hb]. apply bad_arguments_false in Hb.
  destruct Hb as (Hm & _). unfold selected.
  destruct (truthy (create_vol l)); [eauto |].
  destruct (truthy (info_vol l)); [eauto |].
  destruct (truthy (map_vol l)); [eauto | discriminate].
Qed.

(** A validated invocation runs the selected operation, only it, and
    returns its result. *)
Lemma main_validated (evs : list opt_event) (l : locals) (c : engine_call) :
  validated evs l -> selected l = Some c ->
  engine_calls (fst (main evs)) = [c] /\ snd (main evs) = Return (engine_result c).
Proof.
  intros [Hp Hb] Hs. unfold main. rewrite Hp, Hb. cbn [fst snd].
  rewrite engine_calls_startup.
  pose proof (dispatch_selected l) as Hd. rewrite Hs in Hd. exact Hd.
Qed.

Lemma parse_halt_no_call (evs : list opt_event) (l : locals) t o :
  parse evs l = Halt t o -> engine_calls t = [].
Proof.
  revert l. induction evs as [|e evs IH]; intros l; simpl; [discriminate |].
  destruct (opt_step l e) as [l'|t' o'] eqn:He; [apply IH |].
  intros Heq. injection Heq as -> ->.
  unfold opt_step, usage in He.
  repeat match type of He with
         | context [match ?x with _ => _ end] => destruct x
         end; try discriminate; injection He as <- <-; reflexivity.
Qed.

(** An engine operation in the trace of main is the one selected from
    validated locals. *)
Lemma main_call_inv (evs : list opt_event) (c : engine_call) :
  c ∈ engine_calls (fst (main evs)) ->
  exists l, validated evs l /\ selected l = Some c.
Proof.
  unfold main. destruct (parse evs init) as [l|t o] eqn:Hp.
  - destruct (bad_arguments l) eqn:Hb; cbn [fst].
    + rewrite engine_calls_startup. simpl. intros Hin. inversion Hin.
    + rewrite engine_calls_startup. intros Hin. exists l.
      split; [split; assumption |].
      pose proof (dispatch_selected l) as Hd.
      destruct (selected l) as [c'|].
      * destruct Hd as [Hd _]. rewrite Hd in Hin.
        apply list_elem_of_singleton in Hin. congruence.
      * rewrite Hd in Hin. simpl in Hin. inversion Hin.
  - cbn [fst]. rewrite engine_calls_startup.
    rewrite (parse_halt_no_call _ _ _ _ Hp). intros Hin. inversion Hin.
Qed.

Lemma chr_inj (a b : ascii) : chr a = chr b -> a = b.
Proof.
  unfold chr. intros Heq. apply N2Z.inj in Heq.
  rewrite <- (ascii_N_embedding a), <- (ascii_N_embedding b), Heq. reflexivity.
Qed.

Lemma short_cluster_carries (s : string) (next : option string) :
  Forall carries_argument (fst (short_cluster s next)).
Proof.
  induction s as [|a rest IH]; [constructor |].
  cbn [short_cluster].
  destruct (short_option optstring a) as [[|]|] eqn:Ha.
  - destruct rest as [|? ?], next as [n|]; cbn [fst]; repeat constructor;
      unfold carries_argument; cbn [ch optarg]; intros Hc; try discriminate;
      destruct Hc as [Heq|Heq]; vm_compute in Heq; discriminate Heq.
  - cbn [fst]. constructor; [| exact IH].
    unfold carries_argument. cbn [ch optarg].
    intros [Heq|Heq]; apply chr_inj in Heq; subst a; vm_compute in Ha;
      discriminate Ha.
  - cbn [fst]. constructor; [| exact IH].
    unfold carries_argument. cbn [ch optarg].
    intros [Heq|Heq]; vm_compute in Heq; discriminate Heq.
Qed.

Lemma long_matches_in (name : string) e :
  long_matches name = [e] -> In e longopts.
Proof.
  unfold long_matches.
  destruct (List.find _ longopts) as [e'|] eqn:Hf.
  - intros Heq. injection Heq as <-. exact (proj1 (find_some _ _ Hf)).
  - intros Heq.
    assert (Hin : In e (List.filter (fun e0 => String.prefix name (fst (fst e0)))
                          longopts)) by (rewrite Heq; left; reflexivity).
    apply filter_In in Hin. exact (proj1 Hin).
Qed.

Lemma long_option_carries (body : string) (next : option string) :
  carries_argument (fst (long_option body next)).
Proof.
  assert (Hno : forall n v, In (n, no_argument, v) longopts ->
                  v <> chr "a" /\ v <> chr "b").
  { intros n v Hin. simpl in Hin.
    repeat (destruct Hin as [Hin|Hin];
            [try discriminate Hin; injection Hin as <- <-;
             split; discriminate |]).
    destruct Hin. }
  assert (Hq : carries_argument (OptEvent (chr "?") None)).
  { intros [Heq|Heq]; vm_compute in Heq; discriminate Heq. }
  unfold long_option.
  destruct (long_matches (fst (split_eq body))) as [|[[n h] v] [|? ?]] eqn:Hm;
    try exact Hq; try (destruct h; exact Hq).
  apply long_matches_in in Hm.
  destruct h, (snd (split_eq body)), next; cbn [fst]; try exact Hq;
    unfold carries_argument; cbn [ch optarg]; try (intros _; discriminate).
  - intros [Heq|Heq]; destruct (Hno n v Hm); contradiction.
  - intros [Heq|Heq]; destruct (Hno n v Hm); contradiction.
Qed.

Lemma scan_element_carries (arg : string) (next : option string) r :
  scan_element arg next = Some r -> Forall carries_argument (fst r).
Proof.
  unfold scan_element.
  destruct arg as [|a [|b rest]]; try discriminate.
  destruct (Ascii.eqb a "-"); [| discriminate].
  destruct (Ascii.eqb b "-"); intros Heq.
  - assert (r = ([fst (long_option rest next)], snd (long_option rest next)))
      as -> by congruence.
    cbn [fst]. constructor; [apply long_option_carries | constructor].
  - assert (r = short_cluster (String b rest) next) as -> by congruence.
    apply short_cluster_carries.
Qed.

(** Every result of [getopt_long] for [-a] or [-b] carries an argument. *)
Lemma getopt_long_carries (argv : list string) :
  Forall carries_argument (getopt_long argv).
Proof.
  assert (Hq : Forall carries_argument (getopt_long argv)
               /\ forall x rest, argv = x :: rest ->
                    Forall carries_argument (getopt_long rest)).
  { induction argv as [|arg rest [IH1 IH2]]; [split; [constructor | discriminate] |].
    split; [| intros x rest' Heq; injection Heq as <- <-; exact IH1].
    simpl. destruct (String.eqb arg "--"); [constructor |].
    destruct rest as [|next rest'].
    - destruct (scan_element arg None) as [r|] eqn:Hs; [| constructor].
      exact (scan_element_carries _ _ _ Hs).
    - destruct (scan_element arg (Some next)) as [r|] eqn:Hs; [| exact IH1].
      apply Forall_app. split; [exact (scan_element_carries _ _ _ Hs) |].
      destruct (snd r); [exact (IH2 next rest' eq_refl) | exact IH1]. }
  exact (proj1 Hq).
Qed.

(** With results that carry their arguments, the option loop hands no
    [NULL] to a lookup or to [strcmp]. *)
Lemma parse_no_null_deref (evs : list opt_event) (l : locals) t :
  Forall carries_argument evs -> parse evs l <> Halt t (Undef NullDeref).
Proof.
  revert l. induction evs as [|e evs IH]; intros l Hwf; simpl; [discriminate |].
  inversion Hwf as [|? ? He Hrest]; subst.
  destruct (opt_step l e) as [l'|t' o'] eqn:Hs; [apply IH; exact Hrest |].
  intros Heq. injection Heq as -> ->.
  unfold opt_step, usage in Hs. unfold carries_argument in He.
  destruct (switch (ch e)) eqn:Hsw;
    repeat match type of Hs with
           | context [match ?x with _ => _ end] => destruct x eqn:?
           end; try discriminate;
    first [ apply switch_a in Hsw; exact (He (or_introl Hsw) eq_refl)
          | apply switch_b in Hsw; exact (He (or_intror Hsw) eq_refl)
          | match goal with
            | Hst : store_incr _ _ _ = inl _ |- _ =>
                injection Hs as _ Hu; subst; unfold store_incr in Hst;
                repeat match type of Hst with
                       | context [if ?x then _ else _] => destruct x
                       end; discriminate Hst
            end ].
Qed.

(** No command line makes the option loop dereference [NULL]. *)
Lemma main_no_null_deref (argv : list string) :
  snd (main (getopt_long argv)) <> Undef NullDeref.
Proof.
  unfold main.
  destruct (parse (getopt_long argv) init) as [l|t o] eqn:Hp.
  - destruct (bad_arguments l); [discriminate |].
    pose proof (dispatch_selected l) as Hd.
    destruct (selected l); [destruct Hd as [_ ->]; discriminate |].
    rewrite Hd. discriminate.
  - simpl. intros ->.
    exact (parse_no_null_deref _ _ _ (getopt_long_carries argv) Hp).
Qed.

(** ** sig_handler *)

(** C8. For every signal number [sig] and every value of [summary_fn],
    [sig_handler] calls the registered summary function exactly once if and
    only if [sig] is [SIGUSR1] or [SIGINFO] and [summary_fn] is not [NULL];
    for any other signal, or with no function registered, it makes no call.
    [main] installs this handler for [SIGUSR1] and [SIGINFO] before it
    reads its options. *)
Theorem sig_handler_summary {summary : Type} (summary_fn : option summary) (sig : Z) :
  (forall f, sig_handler summary_fn sig = [f]
             <-> (sig = SIGUSR1 \/ sig = SIGINFO) /\ summary_fn = Some f)
  /\ ((sig <> SIGUSR1 /\ sig <> SIGINFO) \/ summary_fn = None ->
      sig_handler summary_fn sig = [])
  /\ (forall evs, exists t,
        fst (main evs) = EInit :: ESignal SIGUSR1 :: ESignal SIGINFO :: t).
Proof.
  unfold sig_handler. repeat split.
  - destruct (Z.eqb_spec sig SIGUSR1), (Z.eqb_spec sig SIGINFO),
      summary_fn; simpl in *; try discriminate; try congruence; tauto.
  - destruct (Z.eqb_spec sig SIGUSR1), (Z.eqb_spec sig SIGINFO),
      summary_fn; simpl in *; try discriminate; congruence.
  - intros [Hs ->]. destruct Hs as [-> | ->]; rewrite Z.eqb_refl;
      rewrite ?orb_true_r; reflexivity.
  - intros [[H1 H2] | ->].
    + apply Z.eqb_neq in H1, H2. rewrite H1, H2. reflexivity.
    + rewrite andb_false_r. reflexivity.
  - intros evs. unfold main, startup.
    destruct (parse evs init); [destruct (bad_arguments _) |]; simpl; eauto.
Qed.

(** ** Dispatch *)

(** C3. For every invocation whose arguments pass the check, exactly one
    engine operation is invoked, one of [create_volume], [info_volume] and
    [map_volume], and [main] returns the result code of that operation. *)
Theorem main_returns_engine_result (evs : list opt_event) (l : locals) :
  validated evs l ->
  exists c, engine_calls (fst (main evs)) = [c]
            /\ snd (main evs) = Return (engine_result c).
Proof.
  intros Hv. destruct (validated_selected evs l Hv) as [c Hc].
  exists c. exact (main_validated evs l c Hv Hc).
Qed.

(** C4. Whenever main invokes an engine operation, the locals it was
    selected from satisfy: [dev] is not [NULL]; exactly one of the create,
    info and map modes is set, and it is the mode of the operation; the
    hidden-volume flag is set only in create mode; hidden keyfiles were
    stored only under protect-hidden or create mode; the system-encryption
    flag comes with a non-[NULL] system device; map mode comes with a
    non-[NULL] mapping name. *)
Theorem engine_call_invariant (evs : list opt_event) (c : engine_call) :
  c ∈ engine_calls (fst (main evs)) ->
  exists l, validated evs l /\ selected l = Some c
    /\ dev l <> None
    /\ exactly_one (truthy (create_vol l)) (truthy (info_vol l))
         (truthy (map_vol l)) = true
    /\ mode_of c = (truthy (create_vol l), truthy (info_vol l), truthy (map_vol l))
    /\ (truthy (contain_hidden l) = true -> truthy (create_vol l) = true)
    /\ (0 < n_hkeyfiles l ->
        truthy (protect_hidden l) = true \/ truthy (create_vol l) = true)
    /\ (truthy (sflag l) = true -> sys_dev l <> None)
    /\ (truthy (map_vol l) = true -> map_name l <> None).
Proof.
  intros Hin. destruct (main_call_inv evs c Hin) as (l & Hv & Hs).
  exists l. split; [exact Hv |]. split; [exact Hs |].
  destruct Hv as [_ Hb]. apply bad_arguments_false in Hb.
  destruct Hb as (Hm & Hd & Hmi & Hmc & Hci & Hh & Hsf & Hmn & Hk).
  unfold selected in Hs.
  repeat split.
  - destruct (dev l); [discriminate | discriminate Hd].
  - destruct (truthy (create_vol l)), (truthy (info_vol l)),
      (truthy (map_vol l)); simpl in *; congruence.
  - destruct (truthy (create_vol l)), (truthy (info_vol l)),
      (truthy (map_vol l)); simpl in *; try discriminate;
      injection Hs as <-; reflexivity.
  - exact Hh.
  - intros Hn. apply orb_true_iff. exact (Hk Hn).
  - intros Ht. specialize (Hsf Ht). destruct (sys_dev l); [discriminate | discriminate Hsf].
  - intros Ht. specialize (Hmn Ht). destruct (map_name l); [discriminate | discriminate Hmn].
Qed.

(** ** The keyfile arrays *)

Lemma store_incr_inr (arr : list slot) (n : Z) (p : cstr) a m :
  store_incr arr n p = inr (a, m) ->
  0 <= n < MAX_KEYFILES /\ n < INT_MAX
  /\ a = <[Z.to_nat n := Stored p]> arr /\ m = n + 1.
Proof.
  unfold store_incr.
  destruct (Z.leb_spec 0 n), (Z.ltb_spec n MAX_KEYFILES); simpl;
    try discriminate.
  destruct (Z.ltb_spec n INT_MAX); [| discriminate].
  intros Heq. injection Heq as <- <-. repeat split; assumption.
Qed.

Lemma optargs_of_cons (c : Z) (e : opt_event) (evs : list opt_event) :
  optargs_of c (e :: evs)
  = if ch e =? c then optarg e :: optargs_of c evs else optargs_of c evs.
Proof. unfold optargs_of. simpl. destruct (ch e =? c); reflexivity. Qed.

Lemma optargs_of_other (c : Z) (k : opt_case) (e : opt_event) evs :
  (forall x, switch x = k <-> x = c) -> switch (ch e) <> k ->
  optargs_of c (e :: evs) = optargs_of c evs.
Proof.
  intros Hk Hne. rewrite optargs_of_cons.
  destruct (Z.eqb_spec (ch e) c) as [Heq|]; [| reflexivity].
  apply Hk in Heq. contradiction.
Qed.

Lemma optargs_of_same (c : Z) (k : opt_case) (e : opt_event) evs :
  (forall x, switch x = k <-> x = c) -> switch (ch e) = k ->
  optargs_of c (e :: evs) = optarg e :: optargs_of c evs.
Proof.
  intros Hk Heq. rewrite optargs_of_cons. apply Hk in Heq.
  rewrite Heq, Z.eqb_refl. reflexivity.
Qed.

(** Case analysis of one pass of the loop body that goes on. *)
Ltac step_cases He :=
  unfold opt_step, usage in He;
  repeat match type of He with
         | context [match ?x with _ => _ end] => destruct x eqn:?
         end;
  try discriminate He; injection He as <-.

Lemma array_store (arr : list slot) (n : Z) (p : cstr) a m :
  array_ok arr n -> store_incr arr n p = inr (a, m) ->
  array_ok a m /\ m = n + 1
  /\ a !! Z.to_nat n = Some (Stored p)
  /\ (forall j, (j < Z.to_nat n)%nat -> a !! j = arr !! j).
Proof.
  intros [Hn Hlen] Hs. apply store_incr_inr in Hs.
  destruct Hs as (Hb & _ & -> & ->). unfold array_ok.
  rewrite length_insert. repeat split; try lia.
  - apply list_lookup_insert_eq. lia.
  - intros j Hj. apply list_lookup_insert_ne. lia.
Qed.

Lemma parse_keyfiles (evs : list opt_event) (l l' : locals) :
  parse evs l = Next l' -> array_ok (keyfiles l) (nkeyfiles l) ->
  array_ok (keyfiles l') (nkeyfiles l')
  /\ nkeyfiles l' = nkeyfiles l + Z.of_nat (occurrences (chr "k") evs)
  /\ (forall i p, optargs_of (chr "k") evs !! i = Some p ->
        keyfiles l' !! (Z.to_nat (nkeyfiles l) + i)%nat = Some (Stored p))
  /\ (forall j, (j < Z.to_nat (nkeyfiles l))%nat ->
        keyfiles l' !! j = keyfiles l !! j).
Proof.
  revert l. induction evs as [|e evs IH]; intros l; simpl.
  - intros Heq Hok. injection Heq as <-. unfold occurrences. simpl.
    repeat split; try apply Hok; try lia. intros i p Hi. inversion Hi.
  - destruct (opt_step l e) as [l1|] eqn:He; [| discriminate].
    intros Hp Hok. specialize (IH l1 Hp). unfold occurrences in *.
    unfold opt_step in He. revert He.
    destruct (switch (ch e)) eqn:Hsw; intros He;
      try (rewrite (optargs_of_other _ Case_k e evs switch_k) by congruence;
           step_cases He; apply IH; exact Hok).
    rewrite (optargs_of_same _ Case_k e evs switch_k) by assumption.
    destruct (store_incr _ _ _) as [u|[a m]] eqn:Hst; [discriminate |].
    injection He as <-. simpl in IH.
    destruct (array_store _ _ _ _ _ Hok Hst) as (Hok' & -> & Hnew & Hold).
    destruct (IH Hok') as (IH1 & IH2 & IH3 & IH4).
    destruct Hok as [Hn _].
    split; [exact IH1 |]. split; [rewrite IH2; simpl; lia |]. split.
    + intros [|i] p Hi; simpl in Hi.
      * injection Hi as <-. rewrite Nat.add_0_r.
        rewrite IH4 by lia. exact Hnew.
      * specialize (IH3 i p Hi).
        replace (Z.to_nat (nkeyfiles l) + S i)%nat
          with (Z.to_nat (nkeyfiles l + 1) + i)%nat by lia. exact IH3.
    + intros j Hj. rewrite IH4 by lia. apply Hold. exact Hj.
Qed.

Lemma parse_h_keyfiles (evs : list opt_event) (l l' : locals) :
  parse evs l = Next l' -> array_ok (h_keyfiles l) (n_hkeyfiles l) ->
  array_ok (h_keyfiles l') (n_hkeyfiles l')
  /\ n_hkeyfiles l' = n_hkeyfiles l + Z.of_nat (occurrences (chr "f") evs)
  /\ (forall i p, optargs_of (chr "f") evs !! i = Some p ->
        h_keyfiles l' !! (Z.to_nat (n_hkeyfiles l) + i)%nat = Some (Stored p))
  /\ (forall j, (j < Z.to_nat (n_hkeyfiles l))%nat ->
        h_keyfiles l' !! j = h_keyfiles l !! j).
Proof.
  revert l. induction evs as [|e evs IH]; intros l; simpl.
  - intros Heq Hok. injection Heq as <-. unfold occurrences. simpl.
    repeat split; try apply Hok; try lia. intros i p Hi. inversion Hi.
  - destruct (opt_step l e) as [l1|] eqn:He; [| discriminate].
    intros Hp Hok. specialize (IH l1 Hp). unfold occurrences in *.
    unfold opt_step in He. revert He.
    destruct (switch (ch e)) eqn:Hsw; intros He;
      try (rewrite (optargs_of_other _ Case_f e evs switch_f) by congruence;
           step_cases He; apply IH; exact Hok).
    rewrite (optargs_of_same _ Case_f e evs switch_f) by assumption.
    destruct (store_incr _ _ _) as [u|[a m]] eqn:Hst; [discriminate |].
    injection He as <-. simpl in IH.
    destruct (array_store _ _ _ _ _ Hok Hst) as (Hok' & -> & Hnew & Hold).
    destruct (IH Hok') as (IH1 & IH2 & IH3 & IH4).
    destruct Hok as [Hn _].
    split; [exact IH1 |]. split; [rewrite IH2; simpl; lia |]. split.
    + intros [|i] p Hi; simpl in Hi.
      * injection Hi as <-. rewrite Nat.add_0_r.
        rewrite IH4 by lia. exact Hnew.
      * specialize (IH3 i p Hi).
        replace (Z.to_nat (n_hkeyfiles l) + S i)%nat
          with (Z.to_nat (n_hkeyfiles l + 1) + i)%nat by lia. exact IH3.
    + intros j Hj. rewrite IH4 by lia. apply Hold. exact Hj.
Qed.

Lemma init_arrays_ok :
  array_ok (keyfiles init) (nkeyfiles init)
  /\ array_ok (h_keyfiles init) (n_hkeyfiles init).
Proof. unfold array_ok. simpl. rewrite length_replicate. lia. Qed.

Lemma selected_keyfiles (l : locals) (c : engine_call) :
  selected l = Some c ->
  call_keyfiles c = keyfiles l /\ call_nkeyfiles c = nkeyfiles l
  /\ call_h_keyfiles c = h_keyfiles l /\ call_n_hkeyfiles c = n_hkeyfiles l.
Proof.
  unfold selected.
  destruct (truthy (create_vol l)); [intros Heq; injection Heq as <-; auto |].
  destruct (truthy (info_vol l)); [intros Heq; injection Heq as <-; auto |].
  destruct (truthy (map_vol l)); [intros Heq; injection Heq as <-; auto |].
  discriminate.
Qed.

Lemma take_stored (arr : list slot) (ps : list cstr) :
  (forall i p, ps !! i = Some p -> arr !! i = Some (Stored p)) ->
  take (length ps) arr = Stored <$> ps.
Proof.
  revert arr. induction ps as [|p ps IH]; intros arr Hl; [reflexivity |].
  destruct arr as [|x arr]; [specialize (Hl 0%nat p eq_refl); discriminate |].
  simpl. f_equal.
  - specialize (Hl 0%nat p eq_refl). simpl in Hl. congruence.
  - apply IH. intros i q Hi. exact (Hl (S i) q Hi).
Qed.

(** X9. The stores of the option loop keep the order of the results of
    [getopt_long].  For every invocation that reaches an engine operation,
    the operation is handed a keyfile count equal to the number of results
    ['k'], and the [optarg] of the ([i]+1)-th of them is stored at index [i]
    of the keyfile array, so the first count elements of the array are these
    [optarg]s in command-line order; the same holds for the results ['f'] and
    the hidden keyfile array.  Which [optarg] a result carries is
    [getopt_long]'s matter: see [hidden_keyfile_short_option]. *)
Lemma keyfiles_in_order (evs : list opt_event) (c : engine_call) :
  c ∈ engine_calls (fst (main evs)) ->
  call_nkeyfiles c = Z.of_nat (occurrences (chr "k") evs)
  /\ (forall i p, optargs_of (chr "k") evs !! i = Some p ->
        call_keyfiles c !! i = Some (Stored p))
  /\ take (Z.to_nat (call_nkeyfiles c)) (call_keyfiles c)
     = Stored <$> optargs_of (chr "k") evs
  /\ call_n_hkeyfiles c = Z.of_nat (occurrences (chr "f") evs)
  /\ (forall i p, optargs_of (chr "f") evs !! i = Some p ->
        call_h_keyfiles c !! i = Some (Stored p))
  /\ take (Z.to_nat (call_n_hkeyfiles c)) (call_h_keyfiles c)
     = Stored <$> optargs_of (chr "f") evs.
Proof.
  intros Hin. destruct (main_call_inv evs c Hin) as (l & [Hp _] & Hs).
  destruct (selected_keyfiles l c Hs) as (-> & -> & -> & ->).
  destruct init_arrays_ok as [Hk Hf].
  destruct (parse_keyfiles evs init l Hp Hk) as (_ & Hn & Hi & _).
  destruct (parse_h_keyfiles evs init l Hp Hf) as (_ & Hn' & Hi' & _).
  simpl in Hn, Hi, Hn', Hi'.
  repeat split; try assumption.
  - replace (Z.to_nat (nkeyfiles l)) with (length (optargs_of (chr "k") evs))
      by (unfold occurrences in Hn; lia).
    apply take_stored. exact Hi.
  - replace (Z.to_nat (n_hkeyfiles l)) with (length (optargs_of (chr "f") evs))
      by (unfold occurrences in Hn'; lia).
    apply take_stored. exact Hi'.
Qed.

(** ** The PRF and cipher-chain selections *)

Lemma parse_prf (evs : list opt_event) (l l' : locals) :
  parse evs l = Next l' ->
  match optargs_of (chr "a") evs with
  | [] => prf l' = prf l
  | [Some name] => prf l = None /\ prf l' = check_prf_algo name 0 /\ prf l' <> None
  | _ => False
  end.
Proof.
  revert l. induction evs as [|e evs IH]; intros l; simpl.
  - intros Heq. injection Heq as <-. reflexivity.
  - destruct (opt_step l e) as [l1|] eqn:He; [| discriminate].
    intros Hp. specialize (IH l1 Hp).
    unfold opt_step in He. revert He.
    destruct (switch (ch e)) eqn:Hsw; intros He;
      try (rewrite (optargs_of_other _ Case_a e evs switch_a) by congruence;
           step_cases He; apply IH).
    rewrite (optargs_of_same _ Case_a e evs switch_a) by assumption.
    destruct (prf l) eqn:Hl; simpl in He; [discriminate |].
    destruct (optarg e) as [s|]; [| discriminate].
    destruct (check_prf_algo s 0) as [p|] eqn:Hck;
      [| destruct (String.eqb s "help"); discriminate].
    injection He as <-. simpl in IH.
    destruct (optargs_of (chr "a") evs) as [|[name|] [|? ?]];
      try contradiction; try (destruct IH; discriminate).
    rewrite IH. repeat split; discriminate.
Qed.

Lemma parse_cipher_chain (evs : list opt_event) (l l' : locals) :
  parse evs l = Next l' ->
  match optargs_of (chr "b") evs with
  | [] => cipher_chain l' = cipher_chain l
  | [Some name] =>
      cipher_chain l = None /\ cipher_chain l' = check_cipher_chain name 0
      /\ cipher_chain l' <> None
  | _ => False
  end.
Proof.
  revert l. induction evs as [|e evs IH]; intros l; simpl.
  - intros Heq. injection Heq as <-. reflexivity.
  - destruct (opt_step l e) as [l1|] eqn:He; [| discriminate].
    intros Hp. specialize (IH l1 Hp).
    unfold opt_step in He. revert He.
    destruct (switch (ch e)) eqn:Hsw; intros He;
      try (rewrite (optargs_of_other _ Case_b e evs switch_b) by congruence;
           step_cases He; apply IH).
    rewrite (optargs_of_same _ Case_b e evs switch_b) by assumption.
    destruct (cipher_chain l) eqn:Hl; simpl in He; [discriminate |].
    destruct (optarg e) as [s|]; [| discriminate].
    destruct (check_cipher_chain s 0) as [p|] eqn:Hck;
      [| destruct (String.eqb s "help"); discriminate].
    injection He as <-. simpl in IH.
    destruct (optargs_of (chr "b") evs) as [|[name|] [|? ?]];
      try contradiction; try (destruct IH; discriminate).
    rewrite IH. repeat split; discriminate.
Qed.

Lemma selected_selection (l : locals) (c : engine_call) :
  selected l = Some c ->
  match c with
  | CreateVolume a => cv_prf a = prf l /\ cv_cipher_chain a = cipher_chain l
  | InfoVolume _ | MapVolume _ => True
  end.
Proof.
  unfold selected.
  destruct (truthy (create_vol l)); [intros Heq; injection Heq as <-; auto |].
  destruct (truthy (info_vol l)); [intros Heq; injection Heq as <-; auto |].
  destruct (truthy (map_vol l)); [intros Heq; injection Heq as <-; auto |].
  discriminate.
Qed.

(** C6, amended. For every invocation that reaches an engine operation:
    if [-a] is omitted the operation receives a null PRF selection, and if
    [-b] is omitted a null cipher-chain selection; if the operation is
    [create_volume] and [-a] (respectively [-b]) is given with a name that
    [check_prf_algo] (respectively [check_cipher_chain]) accepts, it
    receives exactly the registry entry the lookup returned; [info_volume]
    and [map_volume] receive no selection at all. *)
Theorem create_receives_selection (evs : list opt_event) (c : engine_call) :
  c ∈ engine_calls (fst (main evs)) ->
  (occurrences (chr "a") evs = 0%nat -> call_prf c = None)
  /\ (occurrences (chr "b") evs = 0%nat -> call_cipher_chain c = None)
  /\ (forall a, c = CreateVolume a ->
        (forall name p, Some name ∈ optargs_of (chr "a") evs ->
           check_prf_algo name 0 = Some p -> cv_prf a = Some p)
        /\ (forall name cc, Some name ∈ optargs_of (chr "b") evs ->
           check_cipher_chain name 0 = Some cc -> cv_cipher_chain a = Some cc))
  /\ ((forall a, c <> CreateVolume a) ->
        call_prf c = None /\ call_cipher_chain c = None).
Proof.
  intros Hin. destruct (main_call_inv evs c Hin) as (l & [Hp _] & Hs).
  pose proof (parse_prf evs init l Hp) as Ha.
  pose proof (parse_cipher_chain evs init l Hp) as Hb.
  pose proof (selected_selection l c Hs) as Hc.
  unfold occurrences. repeat split.
  - intros Hn. destruct (optargs_of (chr "a") evs); [| discriminate].
    destruct c; simpl in *; [| reflexivity | reflexivity].
    destruct Hc as [-> _]. exact Ha.
  - intros Hn. destruct (optargs_of (chr "b") evs); [| discriminate].
    destruct c; simpl in *; [| reflexivity | reflexivity].
    destruct Hc as [_ ->]. exact Hb.
  - intros name p Hname Hck. subst c. destruct Hc as [-> _].
    destruct (optargs_of (chr "a") evs) as [|[n|] [|? ?]];
      try contradiction; [inversion Hname |].
    apply list_elem_of_singleton in Hname. injection Hname as ->.
    destruct Ha as (_ & -> & _). exact Hck.
  - intros name p Hname Hck. subst c. destruct Hc as [_ ->].
    destruct (optargs_of (chr "b") evs) as [|[n|] [|? ?]];
      try contradiction; [inversion Hname |].
    apply list_elem_of_singleton in Hname. injection Hname as ->.
    destruct Hb as (_ & -> & _). exact Hck.
  - match goal with Hnc : forall a, _ <> _ |- _ =>
      destruct c as [a| |]; [destruct (Hnc a) |..]; reflexivity end.
  - match goal with Hnc : forall a, _ <> _ |- _ =>
      destruct c as [a| |]; [destruct (Hnc a) |..]; reflexivity end.
Qed.

(** ** Overflow of the keyfile arrays *)

Lemma parse_repeat_k (p : cstr) (rest : list opt_event) (n : nat) (l : locals) :
  array_ok (keyfiles l) (nkeyfiles l) ->
  nkeyfiles l + Z.of_nat n <= MAX_KEYFILES ->
  nkeyfiles l + Z.of_nat n <= INT_MAX ->
  exists l', parse (repeat (OptEvent (chr "k") p) n ++ rest) l = parse rest l'
             /\ nkeyfiles l' = nkeyfiles l + Z.of_nat n
             /\ array_ok (keyfiles l') (nkeyfiles l').
Proof.
  revert l. induction n as [|n IH]; intros l Hok Hmax Hint.
  - exists l. simpl. repeat split; try apply Hok. lia.
  - simpl repeat. simpl app. simpl parse.
    unfold opt_step. change (switch (ch (OptEvent (chr "k") p))) with Case_k.
    unfold store_incr. cbn [optarg].
    destruct Hok as [H0 Hlen].
    destruct (Z.leb_spec 0 (nkeyfiles l)); [| lia].
    destruct (Z.ltb_spec (nkeyfiles l) MAX_KEYFILES); [| lia].
    destruct (Z.ltb_spec (nkeyfiles l) INT_MAX); [| lia].
    simpl andb. cbv iota.
    destruct (IH (set_keyfiles l
                    (<[Z.to_nat (nkeyfiles l) := Stored p]> (keyfiles l))
                    (nkeyfiles l + 1))) as (l' & Hp & Hn & Hok').
    + unfold array_ok. simpl. rewrite length_insert. lia.
    + simpl. lia.
    + simpl. lia.
    + exists l'. simpl in Hn. repeat split; try apply Hok'; [exact Hp | lia].
Qed.

(** C9, at the failing input. A command line with [MAX_KEYFILES]+1
    occurrences of [-k], whatever follows them, leaves defined behaviour in
    the option loop: the store [keyfiles[nkeyfiles++]] of the last of them
    falls outside the array (or, were [MAX_KEYFILES] larger than [INT_MAX],
    the counter overflows first); no engine operation is reached. *)
Theorem keyfiles_overflow (p : cstr) (rest : list opt_event) :
  main (repeat (OptEvent (chr "k") p) (S (Z.to_nat MAX_KEYFILES)) ++ rest)
  = (startup,
     Undef (if MAX_KEYFILES <=? INT_MAX then OutOfBounds else SignedOverflow)).
Proof.
  set (k := OptEvent (chr "k") p).
  assert (Hstep : forall l tail, array_ok (keyfiles l) (nkeyfiles l) ->
            parse (k :: tail) l
            = if nkeyfiles l <? MAX_KEYFILES
              then if nkeyfiles l <? INT_MAX
                   then parse tail (set_keyfiles l
                          (<[Z.to_nat (nkeyfiles l) := Stored p]> (keyfiles l))
                          (nkeyfiles l + 1))
                   else Halt [] (Undef SignedOverflow)
              else Halt [] (Undef OutOfBounds)).
  { intros l tail [H0 _]. simpl parse. unfold opt_step.
    change (switch (ch k)) with Case_k. unfold store_incr. cbn [optarg k].
    destruct (Z.leb_spec 0 (nkeyfiles l)); [| lia]. simpl andb.
    destruct (nkeyfiles l <? MAX_KEYFILES); [| reflexivity].
    destruct (nkeyfiles l <? INT_MAX); reflexivity. }
  destruct init_arrays_ok as [Hinit _].
  unfold main. destruct (Z.leb_spec MAX_KEYFILES INT_MAX) as [Hle|Hgt].
  - (* the counter reaches MAX_KEYFILES and the next store is out of bounds *)
    replace (repeat k (S (Z.to_nat MAX_KEYFILES)) ++ rest)
      with (repeat k (Z.to_nat MAX_KEYFILES) ++ k :: rest)
      by (simpl repeat; rewrite repeat_cons, <- app_assoc; reflexivity).
    destruct (Z.le_gt_cases 0 MAX_KEYFILES) as [Hpos|Hneg].
    + destruct (parse_repeat_k p (k :: rest) (Z.to_nat MAX_KEYFILES) init Hinit)
        as (l' & Hp' & Hn & Hok'); [simpl; lia | simpl; lia |].
      fold k in Hp'. rewrite Hp'.
      rewrite (Hstep l' rest Hok'). simpl in Hn.
      destruct (Z.ltb_spec (nkeyfiles l') MAX_KEYFILES); [lia | reflexivity].
    + replace (Z.to_nat MAX_KEYFILES) with 0%nat by lia. simpl app.
      rewrite (Hstep init rest Hinit). simpl nkeyfiles.
      destruct (Z.ltb_spec 0 MAX_KEYFILES); [lia | reflexivity].
  - (* the counter reaches INT_MAX first *)
    replace (repeat k (S (Z.to_nat MAX_KEYFILES)) ++ rest)
      with (repeat k (Z.to_nat INT_MAX)
            ++ k :: (repeat k (Z.to_nat MAX_KEYFILES - Z.to_nat INT_MAX) ++ rest)).
    + destruct (parse_repeat_k p
                  (k :: (repeat k (Z.to_nat MAX_KEYFILES - Z.to_nat INT_MAX) ++ rest))
                  (Z.to_nat INT_MAX) init Hinit)
        as (l' & Hp' & Hn & Hok'); [simpl; unfold INT_MAX in *; lia
                                  | simpl; unfold INT_MAX; lia |].
      fold k in Hp'. rewrite Hp'.
      rewrite (Hstep l' _ Hok'). simpl in Hn.
      assert (nkeyfiles l' = INT_MAX) as -> by (unfold INT_MAX in *; lia).
      destruct (Z.ltb_spec INT_MAX MAX_KEYFILES); [| lia].
      rewrite Z.ltb_irrefl. reflexivity.
    + change (k :: ?x) with (repeat k 1 ++ x).
      rewrite !app_assoc, <- !repeat_app. f_equal. f_equal.
      unfold INT_MAX in *. lia.
Qed.

(** ** Repeated -a or -b *)

Lemma parse_halt_kinds (evs : list opt_event) (l : locals) t o :
  parse evs l = Halt t o ->
  (t = [EUsage] /\ o = Exit 1)
  \/ (o = Exit 0 /\ Exists (fun e => exit0_option e = true) evs)
  \/ (exists u, o = Undef u).
Proof.
  revert l. induction evs as [|e evs IH]; intros l; simpl; [discriminate |].
  destruct (opt_step l e) as [l'|t' o'] eqn:He.
  - intros Hp. destruct (IH l' Hp) as [?|[[? ?]|?]]; auto.
  - intros Heq. injection Heq as -> ->.
    unfold opt_step, usage in He.
    repeat match type of He with
           | context [match ?x with _ => _ end] => destruct x eqn:?
           end; try discriminate; injection He as <- <-;
      first [ left; split; reflexivity
            | right; right; eexists; reflexivity
            | right; left; split; [reflexivity |];
              apply Exists_cons_hd; unfold exit0_option;
              match goal with Hs : switch (ch e) = _ |- _ => rewrite Hs end;
              try match goal with Ho : optarg e = _ |- _ => rewrite Ho end;
              try assumption; reflexivity ].
Qed.

(** More than one [-a], or more than one [-b], never lets the option loop
    run to its end. *)
Lemma parse_repeated (evs : list opt_event) (l : locals) :
  (2 <= occurrences (chr "a") evs)%nat \/ (2 <= occurrences (chr "b") evs)%nat ->
  parse evs init <> Next l.
Proof.
  intros Hdup Hp. unfold occurrences in Hdup.
  pose proof (parse_prf evs init l Hp) as Ha.
  pose proof (parse_cipher_chain evs init l Hp) as Hb.
  destruct Hdup as [Hdup|Hdup].
  - destruct (optargs_of (chr "a") evs) as [|[n|] [|? ?]];
      simpl in Hdup; try contradiction; lia.
  - destruct (optargs_of (chr "b") evs) as [|[n|] [|? ?]];
      simpl in Hdup; try contradiction; lia.
Qed.

(** C10, amended. For every invocation in which [-a] or [-b] appears more
    than once, no engine operation is invoked, and the process terminates
    through usage() unless an option with an [exit(0)] of its own ([-v], or
    [-a help] / [-b help]) has ended it before, or the option loop has left
    defined behaviour. *)
Theorem repeated_selection_no_engine (evs : list opt_event) :
  (2 <= occurrences (chr "a") evs)%nat \/ (2 <= occurrences (chr "b") evs)%nat ->
  engine_calls (fst (main evs)) = []
  /\ (through_usage (main evs)
      \/ (snd (main evs) = Exit 0 /\ Exists (fun e => exit0_option e = true) evs)
      \/ (exists u, snd (main evs) = Undef u)).
Proof.
  intros Hdup. unfold main, through_usage.
  destruct (parse evs init) as [l|t o] eqn:Hp.
  - destruct (parse_repeated evs l Hdup Hp).
  - cbn [fst snd]. rewrite engine_calls_startup.
    split; [exact (parse_halt_no_call _ _ _ _ Hp) |].
    destruct (parse_halt_kinds _ _ _ _ Hp) as [[-> ->]|[[-> Hex]|[u ->]]]; eauto.
Qed.

(** ** Retries *)

Lemma selected_retries (l : locals) (c : engine_call) :
  selected l = Some c ->
  match c with
  | CreateVolume a => cv_interactive a = 1
  | InfoVolume a => iv_retries a = DEFAULT_RETRIES /\ iv_interactive a = 1
  | MapVolume a => mv_retries a = DEFAULT_RETRIES /\ mv_interactive a = 1
  end.
Proof.
  unfold selected.
  destruct (truthy (create_vol l)); [intros Heq; injection Heq as <-; auto |].
  destruct (truthy (info_vol l)); [intros Heq; injection Heq as <-; auto |].
  destruct (truthy (map_vol l)); [intros Heq; injection Heq as <-; auto |].
  discriminate.
Qed.

End Tc_play_properties.

(** * Properties of the engine model *)

(** ** The retry loop *)

Section Prober_facts.
Import Prober.
Context {V P : Type}.
Variable probe_once : P -> option V.
Variable prompt : nat -> P.

Lemma retry_loop_bound (retries asked : nat) :
  (asked <= fst (retry_loop probe_once prompt retries asked) <= asked + retries)%nat.
Proof.
  revert asked. induction retries as [|r IH]; intros asked; simpl; [lia |].
  destruct (probe_once (prompt asked)); simpl; [lia |].
  specialize (IH (S asked)). lia.
Qed.

Lemma retry_loop_all_fail (retries asked : nat) :
  (forall n, (asked <= n < asked + retries)%nat -> probe_once (prompt n) = None) ->
  retry_loop probe_once prompt retries asked
  = ((asked + retries)%nat, AuthenticationFailed).
Proof.
  revert asked. induction retries as [|r IH]; intros asked Hf; simpl.
  - rewrite Nat.add_0_r. reflexivity.
  - rewrite (Hf asked) by lia. rewrite IH by (intros n Hn; apply Hf; lia).
    f_equal. lia.
Qed.

Lemma retry_loop_unlocked (retries asked : nat) (v : V) :
  snd (retry_loop probe_once prompt retries asked) = Unlocked v ->
  exists n, (asked <= n < asked + retries)%nat /\ probe_once (prompt n) = Some v.
Proof.
  revert asked. induction retries as [|r IH]; intros asked; simpl; [discriminate |].
  destruct (probe_once (prompt asked)) as [v'|] eqn:Hp; simpl.
  - intros Heq. injection Heq as <-. exists asked. split; [lia | exact Hp].
  - intros Hs. destruct (IH (S asked) Hs) as (n & Hn & Hv).
    exists n. split; [lia | exact Hv].
Qed.

End Prober_facts.

(** ** The header codec *)

Section Codec_facts.
Import Codec.

Lemma to_N_byte_of_N (n : N) : Byte.to_N (byte_of_N n) = (n mod 256)%N.
Proof.
  unfold byte_of_N. destruct (Byte.of_N (n mod 256)) as [b|] eqn:Hb.
  - apply Byte.to_of_N. exact Hb.
  - apply Byte.of_N_None_iff in Hb.
    pose proof (N.mod_upper_bound n 256). lia.
Qed.

Lemma length_be_bytes (w : nat) (n : N) : length (be_bytes w n) = w.
Proof. induction w; simpl; congruence. Qed.

Lemma be_value_be_bytes_acc (w : nat) (n acc : N) :
  fold_left (fun a b => (a * 256 + Byte.to_N b)%N) (be_bytes w n) acc
  = (acc * 256 ^ N.of_nat w + n mod 256 ^ N.of_nat w)%N.
Proof.
  revert acc. induction w as [|w IH]; intros acc.
  - simpl. rewrite N.mod_1_r. lia.
  - cbn [be_bytes fold_left]. rewrite IH, to_N_byte_of_N.
    replace (N.of_nat (S w)) with (N.succ (N.of_nat w)) by lia.
    rewrite N.pow_succ_r'.
    rewrite (N.mul_comm 256 (256 ^ N.of_nat w)).
    rewrite (N.Div0.mod_mul_r n (256 ^ N.of_nat w) 256). lia.
Qed.

Lemma be_value_be_bytes (w : nat) (n : N) :
  fits w n -> be_value (be_bytes w n) = n.
Proof.
  intros Hn. unfold be_value. rewrite be_value_be_bytes_acc.
  rewrite N.mod_small by exact Hn. lia.
Qed.

Lemma read_bytes_app (bs rest : list byte) :
  read_bytes (length bs) (bs ++ rest) = Some (bs, rest).
Proof.
  unfold read_bytes. rewrite length_app.
  destruct (decide _) as [_|Hn]; [| lia].
  rewrite take_app_length, drop_app_length. reflexivity.
Qed.

Context {fmt : header_format} {ce : cipher_engine}.

Lemma bytes_field_app (f : field) (bs rest : list byte) :
  length bs = width f ->
  bytes_field f (bs ++ replicate (reserved_after f) x00 ++ rest) = Some (bs, rest).
Proof.
  intros Hl. unfold bytes_field, mbind, parser_bind.
  rewrite <- Hl, read_bytes_app.
  rewrite <- (length_replicate (reserved_after f) x00) at 1.
  rewrite read_bytes_app. reflexivity.
Qed.

Lemma int_field_app (f : field) (n : N) (rest : list byte) :
  fits (width f) n ->
  int_field f (be_bytes (width f) n ++ replicate (reserved_after f) x00 ++ rest)
  = Some (n, rest).
Proof.
  intros Hn. unfold int_field, read_int, mbind, parser_bind.
  rewrite <- (length_be_bytes (width f) n) at 1. rewrite read_bytes_app.
  unfold mret, parser_ret.
  rewrite <- (length_replicate (reserved_after f) x00) at 1.
  rewrite read_bytes_app, be_value_be_bytes by exact Hn. reflexivity.
Qed.

Lemma length_field_bytes (h : volume_header) (f : field) :
  valid_header h -> length (field_bytes h f) = width f.
Proof.
  intros Hv. destruct f; simpl; try apply length_be_bytes; apply Hv.
Qed.

Lemma length_segments (h : volume_header) (fs : list field) :
  valid_header h -> length (concat (segment h <$> fs)) = region_size fs.
Proof.
  intros Hv. induction fs as [|f fs IH]; [reflexivity |].
  unfold region_size in *. cbn [fmap list_fmap concat sum_list sum_list_with].
  unfold segment at 1.
  rewrite !length_app, length_replicate, IH, (length_field_bytes h f Hv).
  simpl. lia.
Qed.

Lemma length_header_plain (h : volume_header) :
  valid_header h -> length (header_plain h) = plain_size.
Proof. intros Hv. apply length_segments. exact Hv. Qed.

Lemma parse_header_plain (h : volume_header) :
  valid_header h -> parse_header (header_plain h) = Some (h, []).
Proof.
  intros Hv. destruct h as [m v mv st sz ks ss iv kc fl hc].
  destruct Hv as [Hm Hmw Hv' Hmv Hst Hsz Hks Hss Hiv Hkc Hfl Hhc _ _].
  simpl in *.
  unfold header_plain, fields, segment. simpl. rewrite <- !app_assoc.
  unfold parse_header, mbind, parser_bind.
  rewrite (bytes_field_app F_magic) by exact Hmw.
  rewrite (int_field_app F_version) by exact Hv'.
  rewrite (int_field_app F_min_version) by exact Hmv.
  rewrite (int_field_app F_enc_area_start) by exact Hst.
  rewrite (int_field_app F_enc_area_size) by exact Hsz.
  rewrite (bytes_field_app F_master_keys) by exact Hks.
  rewrite (int_field_app F_sector_size) by exact Hss.
  rewrite (bytes_field_app F_iv_seed) by exact Hiv.
  rewrite (int_field_app F_keys_crc) by exact Hkc.
  rewrite (int_field_app F_flags) by exact Hfl.
  rewrite (int_field_app F_header_crc) by exact Hhc.
  reflexivity.
Qed.

Lemma checks_valid (h : volume_header) : valid_header h -> checks h = true.
Proof.
  intros Hv. unfold checks.
  rewrite (bool_decide_eq_true_2 _ (valid_magic h Hv)).
  rewrite <- (valid_keys_crc h Hv), <- (valid_header_crc h Hv).
  rewrite !N.eqb_refl. reflexivity.
Qed.

Lemma fields_split (f : field) :
  fields = take (field_index f) fields ++ f :: drop (S (field_index f)) fields.
Proof. destruct f; reflexivity. Qed.

(** In the header in the clear every reserved region is zero-filled. *)
Lemma reserved_region_zero (h : volume_header) (f : field) :
  valid_header h ->
  reserved_region f (header_plain h) = replicate (reserved_after f) x00.
Proof.
  intros Hv. unfold reserved_region, reserved_offset, header_plain.
  rewrite (fields_split f) at 2.
  rewrite fmap_app, concat_app, fmap_cons. cbn [concat]. unfold segment at 2.
  rewrite <- (length_segments h _ Hv), <- (length_field_bytes h f Hv).
  rewrite <- !app_assoc, (app_assoc (concat _) (field_bytes h f)).
  rewrite <- length_app, drop_app_length.
  rewrite <- (length_replicate (reserved_after f) x00) at 1.
  apply take_app_length.
Qed.

(** The round trip of one cipher in XTS mode. *)
Hypothesis xts_round_trip : forall c k s p,
  xts_decrypt c k s (xts_encrypt c k s p) = p.

(** A cipher in XTS mode keeps the length of the sector. *)
Hypothesis xts_length : forall c k s p,
  length (xts_encrypt c k s p) = length p.

Lemma decrypt_encrypt_sector (chain : list cipher_id) key s p :
  decrypt_sector chain key s (encrypt_sector chain key s p) = p.
Proof.
  revert key p. induction chain as [|c inner IH]; intros key p; simpl.
  - reflexivity.
  - rewrite IH. apply xts_round_trip.
Qed.

Lemma length_encrypt_sector (chain : list cipher_id) key s p :
  length (encrypt_sector chain key s p) = length p.
Proof.
  revert key p. induction chain as [|c inner IH]; intros key p; simpl.
  - reflexivity.
  - rewrite IH. apply xts_length.
Qed.

Lemma decrypted_region_encode (h : volume_header) (p : prf_algo)
    (chain : list cipher_id) :
  valid_header h -> decrypted_region (encode h p chain) p chain = header_plain h.
Proof.
  intros Hv. unfold decrypted_region, encrypted_region, encode.
  rewrite drop_app_length.
  rewrite <- (length_header_plain h Hv).
  rewrite <- (length_encrypt_sector chain (key_material p) header_sector
                (header_plain h)).
  rewrite firstn_all. apply decrypt_encrypt_sector.
Qed.


End Codec_facts.

(** ** Hidden-volume protection *)

Section Protector_facts.
Import Codec Protector.

Lemma write_ceiling_kept (m : mapping) (off : N) (b : byte) :
  write_ceiling (snd (write m off b)) = write_ceiling m.
Proof.
  unfold write. destruct (write_ceiling m) as [H|] eqn:Hc; [| reflexivity].
  destruct (H <=? off)%N; simpl; [exact Hc | reflexivity].
Qed.

Lemma write_above_ceiling (m : mapping) (H off off' : N) (b : byte) :
  write_ceiling m = Some H -> (H <= off')%N ->
  contents (snd (write m off b)) !! off' = contents m !! off'.
Proof.
  intros Hc Hle. unfold write. rewrite Hc.
  destruct (N.leb_spec H off); simpl; [reflexivity |].
  apply lookup_insert_ne. lia.
Qed.

Lemma write_all_above_ceiling (ws : list (N * byte)) (m : mapping) (H off : N) :
  write_ceiling m = Some H -> (H <= off)%N ->
  contents (snd (write_all m ws)) !! off = contents m !! off.
Proof.
  revert m. induction ws as [|[o b] ws IH]; intros m Hc Hle; [reflexivity |].
  cbn [write_all fst snd].
  rewrite (IH (snd (write m o b)));
    [| rewrite write_ceiling_kept; exact Hc | exact Hle].
  exact (write_above_ceiling m H o off b Hc Hle).
Qed.

(** C1. Once a hidden header [h] has been decrypted, with protected offset
    [enc_area_start h], every write to the outer mapping at a byte offset at
    or beyond it is rejected with an I/O error and leaves the mapping as it
    was, every write strictly below it succeeds and stores the byte as
    given, and after any sequence of writes the bytes at or beyond the
    offset are those of the device at activation.  If no hidden header
    decrypts, the mapping has no ceiling and every write is applied. *)
Theorem hidden_volume_protected (device : gmap N byte)
    (hidden : option volume_header) :
  (forall h off b, hidden = Some h ->
     (enc_area_start h <= off)%N ->
     write (activate device hidden) off b = (IoError, activate device hidden))
  /\ (forall h off b, hidden = Some h ->
     (off < enc_area_start h)%N ->
     write (activate device hidden) off b
     = (IoOk, Mapping (<[off := b]> device) (Some (enc_area_start h))))
  /\ (forall h ws off, hidden = Some h ->
     (enc_area_start h <= off)%N ->
     contents (snd (write_all (activate device hidden) ws)) !! off = device !! off)
  /\ (hidden = None ->
      activate device hidden = Mapping device None
      /\ forall off b, write (activate device hidden) off b
                       = (IoOk, Mapping (<[off := b]> device) None)).
Proof.
  repeat split.
  - intros h off b -> Hle. unfold write, activate. simpl.
    destruct (N.leb_spec (enc_area_start h) off); [reflexivity | lia].
  - intros h off b -> Hlt. unfold write, activate. simpl.
    destruct (N.leb_spec (enc_area_start h) off); [lia | reflexivity].
  - intros h ws off -> Hle.
    exact (write_all_above_ceiling ws (activate device (Some h))
             (enc_area_start h) off eq_refl Hle).
  - subst hidden. reflexivity.
  - subst hidden. reflexivity.
Qed.

End Protector_facts.

(** * main and the retry bound *)

Section Retries.
Import Prober.
Context {tch : tc_play_h} {sigh : signal_h} {eng : engine}.

(** C7. Every [info_volume] or [map_volume] call of main passes
    [DEFAULT_RETRIES] as the retry bound and 1 as the interactive flag; and
    an interactive probe run with the bound it was passed asks for a
    passphrase at most [DEFAULT_RETRIES] times, and when each of these
    attempts fails it ends, after exactly that many, with
    [AuthenticationFailed]. *)
Theorem retries_bounded (evs : list opt_event) (c : engine_call) :
  c ∈ engine_calls (fst (main evs)) ->
  (forall a, c <> CreateVolume a) ->
  call_retries c = Some DEFAULT_RETRIES
  /\ call_interactive c = 1
  /\ forall (V P : Type) (probe_once : P -> option V) (prompt : nat -> P) r,
       call_retries c = Some r ->
       (fst (probe_interactive probe_once prompt r) <= Z.to_nat DEFAULT_RETRIES)%nat
       /\ ((forall n, (n < Z.to_nat DEFAULT_RETRIES)%nat ->
              probe_once (prompt n) = None) ->
           probe_interactive probe_once prompt r
           = (Z.to_nat DEFAULT_RETRIES, AuthenticationFailed)).
Proof.
  intros Hin Hnc. destruct (main_call_inv evs c Hin) as (l & _ & Hs).
  pose proof (selected_retries l c Hs) as Hr.
  assert (Hcr : call_retries c = Some DEFAULT_RETRIES /\ call_interactive c = 1).
  { destruct c as [a|a|a]; [destruct (Hnc a); reflexivity |..];
      simpl; destruct Hr as [-> ->]; split; reflexivity. }
  destruct Hcr as [Hcr Hci]. split; [exact Hcr |]. split; [exact Hci |].
  intros V P probe_once prompt r Hr'. rewrite Hcr in Hr'. injection Hr' as <-.
  unfold probe_interactive. split.
  - pose proof (retry_loop_bound probe_once prompt
                  (Z.to_nat DEFAULT_RETRIES) 0) as Hb. lia.
  - intros Hfail.
    rewrite (retry_loop_all_fail probe_once prompt (Z.to_nat DEFAULT_RETRIES) 0)
      by (intros n Hn; apply Hfail; lia).
    reflexivity.
Qed.

End Retries.

(** * The properties at the sample command lines *)

Section Examples.
Import Sample.
#[local] Existing Instance tc_play.
#[local] Existing Instance signals.
#[local] Existing Instance engine_run.

(** C3 at [tc-play -i -d /dev/da0 -k a.key --keyfile=b.key]: one call, of
    [info_volume], and its result is the return value. *)
Lemma main_returns_engine_result_witness :
  validated cmd_info (parsed cmd_info)
  /\ exists c, engine_calls (fst (main cmd_info)) = [c]
               /\ snd (main cmd_info) = Return (engine_result c).
Proof.
  split; [split; vm_compute; reflexivity |].
  apply (main_returns_engine_result cmd_info (parsed cmd_info)).
  split; vm_compute; reflexivity.
Defined.

(** C4 at [tc-play -m vol -d /dev/da0 -e --keyfile-hidden h.key]. *)
Lemma engine_call_invariant_witness :
  MapVolume (map_call (parsed cmd_map)) ∈ engine_calls (fst (main cmd_map))
  /\ exists l, validated cmd_map l
       /\ selected l = Some (MapVolume (map_call (parsed cmd_map)))
       /\ dev l <> None /\ map_name l <> None
       /\ truthy (protect_hidden l) = true.
Proof.
  split; [vm_compute; left |].
  destruct (engine_call_invariant cmd_map (MapVolume (map_call (parsed cmd_map))))
    as (l & Hv & Hs & Hd & _ & Hm & _ & Hh & _ & Hn).
  - vm_compute. left.
  - exists l. destruct Hv as [Hp Hb].
    assert (l = parsed cmd_map) as ->.
    { unfold parsed. rewrite Hp. reflexivity. }
    repeat split; try assumption; vm_compute; try reflexivity; discriminate.
Defined.

(** The keyfiles of [tc-play -i -d /dev/da0 -k a.key --keyfile=b.key]. *)
Lemma keyfiles_in_order_example :
  let c := InfoVolume (info_call (parsed cmd_info)) in
  c ∈ engine_calls (fst (main cmd_info))
  /\ call_nkeyfiles c = 2
  /\ call_keyfiles c !! 0%nat = Some (Stored (Some "a.key"%string))
  /\ call_keyfiles c !! 1%nat = Some (Stored (Some "b.key"%string))
  /\ call_n_hkeyfiles c = 0.
Proof.
  split; [vm_compute; left |].
  destruct (keyfiles_in_order cmd_info (InfoVolume (info_call (parsed cmd_info))))
    as (Hn & Hk & _ & Hn' & _).
  - vm_compute. left.
  - split; [exact Hn |]. split; [apply Hk; reflexivity |].
    split; [apply Hk; reflexivity | exact Hn'].
Defined.

(** C6, counterexample. At [tc-play -i -d /dev/da0 -a SHA-512] the lookup
    accepts the name, [info_volume] is invoked, and it receives no PRF
    selection. *)
Lemma info_receives_no_selection :
  main cmd_info_prf
  = (startup
     ++ [ECall (InfoVolume
                  (InfoArgs (Some "/dev/da0"%string) 0 None 0
                     (replicate 256 Indeterminate) 0
                     (replicate 256 Indeterminate) 0 None None 1 3))],
     Return (-1))
  /\ exists c name p,
       c ∈ engine_calls (fst (main cmd_info_prf))
       /\ Some name ∈ optargs_of (chr "a") cmd_info_prf
       /\ check_prf_algo name 0 = Some p
       /\ call_prf c <> Some p.
Proof.
  split; [vm_compute; reflexivity |].
  exists (InfoVolume (info_call (parsed cmd_info_prf))), "SHA-512"%string,
    "SHA-512"%string.
  split; [vm_compute; left |]. split; [vm_compute; left |].
  split; [reflexivity | discriminate].
Qed.

(** C6, amended, at [tc-play -c -d /dev/da0 -a SHA-512 -b AES]. *)
Lemma create_receives_selection_witness :
  CreateVolume (create_call (parsed cmd_create))
  ∈ engine_calls (fst (main cmd_create))
  /\ cv_prf (create_call (parsed cmd_create)) = Some "SHA-512"%string
  /\ cv_cipher_chain (create_call (parsed cmd_create)) = Some "AES"%string.
Proof.
  split; [vm_compute; left |].
  destruct (create_receives_selection cmd_create
              (CreateVolume (create_call (parsed cmd_create))))
    as (_ & _ & Hc & _).
  - vm_compute. left.
  - destruct (Hc _ eq_refl) as [Ha Hb]. split.
    + apply (Ha "SHA-512"%string); [vm_compute; left | reflexivity].
    + apply (Hb "AES"%string); [vm_compute; left | reflexivity].
Defined.

(** C7 at [tc-play -i -d /dev/da0 -k a.key --keyfile=b.key], with a prober
    that never finds a header. *)
Lemma retries_bounded_witness :
  let c := InfoVolume (info_call (parsed cmd_info)) in
  c ∈ engine_calls (fst (main cmd_info))
  /\ call_retries c = Some 3
  /\ call_interactive c = 1
  /\ Prober.probe_interactive (fun _ : string => @None unit)
       (fun _ => "wrong-password"%string) 3
     = (3%nat, Prober.AuthenticationFailed).
Proof.
  split; [vm_compute; left |].
  destruct (retries_bounded cmd_info (InfoVolume (info_call (parsed cmd_info))))
    as (Hr & Hi & Hp).
  - vm_compute. left.
  - discriminate.
  - split; [exact Hr |]. split; [exact Hi |].
    destruct (Hp unit string (fun _ => None) (fun _ => "wrong-password"%string)
                3 Hr) as [_ Hfail].
    apply Hfail. reflexivity.
Defined.

(** C10, counterexample. At [tc-play -v -a SHA-512 -a SHA-512] the option
    [-a] appears twice and the process ends with [exit(0)] after printing
    its version, not through usage(). *)
Lemma version_before_repeated_selection :
  (2 <= occurrences (chr "a") cmd_version_twice)%nat
  /\ main cmd_version_twice = (startup ++ [EVersion MAJ_VER MIN_VER], Exit 0)
  /\ ~ through_usage (main cmd_version_twice).
Proof.
  split; [vm_compute; lia |]. split; [reflexivity |].
  intros (t & _ & He). vm_compute in He. discriminate.
Qed.

(** C10, amended, at [tc-play -a SHA-512 -a SHA-512 -i -d /dev/da0]. *)
Lemma repeated_selection_no_engine_witness :
  (2 <= occurrences (chr "a") cmd_twice)%nat
  /\ engine_calls (fst (main cmd_twice)) = []
  /\ through_usage (main cmd_twice).
Proof.
  assert (Hdup : (2 <= occurrences (chr "a") cmd_twice)%nat) by (vm_compute; lia).
  split; [exact Hdup |].
  destruct (repeated_selection_no_engine cmd_twice (or_introl Hdup))
    as [Hn [Hu | [[He _] | [u Hu]]]].
  - split; assumption.
  - vm_compute in He. discriminate.
  - vm_compute in Hu. discriminate.
Defined.

Lemma byte_of_N_eq (n : N) (b : byte) :
  (n mod 256)%N = Byte.to_N b -> Codec.byte_of_N n = b.
Proof.
  intros Hn. unfold Codec.byte_of_N. rewrite Hn, Byte.of_to_N. reflexivity.
Qed.

Lemma shift_back (x t : N) :
  (x < 256)%N -> (t < 256)%N -> (((x + t) mod 256 + (256 - t)) mod 256)%N = x.
Proof.
  intros Hx Ht. destruct (N.lt_ge_cases (x + t) 256) as [Hlt|Hge].
  - rewrite (N.mod_small (x + t)) by exact Hlt.
    replace (x + t + (256 - t))%N with (x + 1 * 256)%N by lia.
    rewrite N.Div0.mod_add. apply N.mod_small. exact Hx.
  - replace ((x + t) mod 256)%N with (x + t - 256)%N.
    + replace (x + t - 256 + (256 - t))%N with x by lia.
      apply N.mod_small. exact Hx.
    + symmetry. replace (x + t)%N with ((x + t - 256) + 1 * 256)%N at 1 by lia.
      rewrite N.Div0.mod_add. apply N.mod_small. lia.
Qed.

(** The sample ciphers decrypt what they encrypt. *)
Lemma sample_xts_round_trip (c : @Codec.cipher_id ciphers) k s p :
  @Codec.xts_decrypt ciphers c k s (@Codec.xts_encrypt ciphers c k s p) = p.
Proof.
  simpl. rewrite <- list_fmap_compose.
  induction p as [|b p IH]; [reflexivity |].
  cbn [fmap list_fmap compose] in *. rewrite IH. f_equal.
  apply byte_of_N_eq. rewrite to_N_byte_of_N.
  apply shift_back.
  - pose proof (Byte.to_N_bounded b). lia.
  - unfold shift. apply N.mod_upper_bound. discriminate.
Qed.

Lemma sample_xts_length (c : @Codec.cipher_id ciphers) k s p :
  length (@Codec.xts_encrypt ciphers c k s p) = length p.
Proof. simpl. apply length_fmap. Qed.

Lemma sample_volume_valid (start : N) :
  (start < 2 ^ 64)%N -> @Codec.valid_header format (volume start).
Proof.
  intros Hs. constructor; try reflexivity; try exact Hs.
  unfold Codec.fits. simpl. apply N.mod_upper_bound. discriminate.
Qed.



(** C1 at a hidden header whose encrypted area starts at byte 4096. *)
Lemma hidden_volume_protected_witness :
  let m := Protector.activate device (Some (volume 4096)) in
  Protector.write m 4096 x00 = (Protector.IoError, m)
  /\ Protector.write m 4095 x00
     = (Protector.IoOk, Protector.Mapping (<[4095%N := x00]> device) (Some 4096%N))
  /\ Protector.contents
       (snd (Protector.write_all m [(4095, x00); (4096, x00); (5000, x01)]%N))
       !! 4096%N = Some x65.
Proof.
  destruct (hidden_volume_protected device (Some (volume 4096)))
    as (Hrej & Hok & Hseq & _).
  split; [apply (Hrej (volume 4096)); [reflexivity | simpl; lia] |].
  split; [apply (Hok (volume 4096)); [reflexivity | simpl; lia] |].
  rewrite (Hseq (volume 4096)); [reflexivity | reflexivity | simpl; lia].
Defined.

(** C9 at the sample configuration: 257 occurrences of [-k] with
    [MAX_KEYFILES] = 256. *)
Lemma keyfiles_overflow_sample :
  occurrences (chr "k") cmd_many_keyfiles = 257%nat
  /\ main cmd_many_keyfiles = (startup, Undef OutOfBounds).
Proof. split; vm_compute; reflexivity. Qed.

(** The sample codec runs: the pair used to encode decodes the header, and
    another cipher chain is discarded. *)
Lemma decode_encode_computes :
  @Codec.decode format ciphers
    (@Codec.encode format ciphers (volume 4096) "SHA-512"%string [1; 2]%N)
    "SHA-512"%string [1; 2]%N = Some (volume 4096)
  /\ @Codec.decode format ciphers
       (@Codec.encode format ciphers (volume 4096) "SHA-512"%string [1; 2]%N)
       "SHA-512"%string [3]%N = None.
Proof. split; vm_compute; reflexivity. Qed.

(** C5, at the failing input [tc-play -m vol -d /dev/da0 -e -f h.key].  The
    option string lists [f] without a colon, so [getopt_long] returns ['f']
    with a [NULL] [optarg] and passes [h.key] over; [main] stores the [NULL]
    and [map_volume] receives one hidden keyfile, [NULL], not [h.key].  The
    long form [--keyfile-hidden h.key] and the option [-k], listed as [k:],
    deliver their keyfile. *)
Theorem hidden_keyfile_short_option :
  short_option optstring "f" = Some false
  /\ cmd_map_short
     = [ OptEvent (chr "m") (Some "vol"%string);
         OptEvent (chr "d") (Some "/dev/da0"%string);
         OptEvent (chr "e") None; OptEvent (chr "f") None ]
  /\ (exists a, engine_calls (fst (main cmd_map_short)) = [MapVolume a]
        /\ mv_n_hkeyfiles a = 1
        /\ mv_h_keyfiles a !! 0%nat = Some (Stored None))
  /\ (exists a, engine_calls (fst (main cmd_map)) = [MapVolume a]
        /\ mv_n_hkeyfiles a = 1
        /\ mv_h_keyfiles a !! 0%nat = Some (Stored (Some "h.key"%string))).
Proof.
  split; [reflexivity |]. split; [reflexivity |]. split.
  - exists (map_call (parsed cmd_map_short)). repeat split; vm_compute; reflexivity.
  - exists (map_call (parsed cmd_map)). repeat split; vm_compute; reflexivity.
Qed.

End Examples.

(** * Further properties of main.c *)

Section Option_loop.
Context {tch : tc_play_h} {sigh : signal_h} {eng : engine}.

Lemma switch_c c : switch c = Case_c <-> c = chr "c".
Proof. now apply switch_spec. Qed.
Lemma switch_d c : switch c = Case_d <-> c = chr "d".
Proof. now apply switch_spec. Qed.
Lemma switch_e c : switch c = Case_e <-> c = chr "e".
Proof. now apply switch_spec. Qed.
Lemma switch_g c : switch c = Case_g <-> c = chr "g".
Proof. now apply switch_spec. Qed.
Lemma switch_i c : switch c = Case_i <-> c = chr "i".
Proof. now apply switch_spec. Qed.
Lemma switch_m c : switch c = Case_m <-> c = chr "m".
Proof. now apply switch_spec. Qed.
Lemma switch_s c : switch c = Case_s <-> c = chr "s".
Proof. now apply switch_spec. Qed.
Lemma switch_v c : switch c = Case_v <-> c = chr "v".
Proof. now apply switch_spec. Qed.

(** The loop over a command line in two parts. *)
Lemma parse_app (pre rest : list opt_event) (l : locals) :
  parse (pre ++ rest) l
  = match parse pre l with
    | Next l' => parse rest l'
    | Halt t o => Halt t o
    end.
Proof.
  revert l. induction pre as [|e pre IH]; intros l; simpl; [reflexivity |].
  destruct (opt_step l e); [apply IH | reflexivity].
Qed.

(** One pass of the loop body that goes on, by the label it takes. *)
Ltac step_cases He :=
  unfold opt_step, usage in He;
  repeat match type of He with
         | context [match ?x with _ => _ end] => destruct x eqn:?
         end;
  try discriminate He; injection He as <-.

(** A field that only the option with label [k] writes. *)
Ltac field_induction sw k :=
  let l := fresh "l" in
  let evs := fresh "evs" in
  intros evs; induction evs as [|e evs IH]; intros l l';
  [ simpl; intros Heq; injection Heq as <-; repeat split; reflexivity | ];
  simpl parse;
  destruct (opt_step l e) as [l1|] eqn:He; [| discriminate];
  intros Hp; specialize (IH l1 l' Hp);
  rewrite optargs_of_cons;
  unfold opt_step in He; revert He;
  destruct (Z.eqb_spec (ch e) (chr k)) as [Heq|Hne];
  [ apply sw in Heq; rewrite Heq; intros He; step_cases He; simpl in IH
  | assert (Hsw : switch (ch e) <> _) by (rewrite sw; exact Hne);
    destruct (switch (ch e)); try contradiction;
    intros He; step_cases He; simpl in IH; exact IH ].

Lemma parse_create_vol : forall evs l l',
  parse evs l = Next l' ->
  create_vol l' = match optargs_of (chr "c") evs with
                  | [] => create_vol l
                  | _ :: _ => 1
                  end.
Proof.
  field_induction switch_c "c"%char.
  destruct (optargs_of (chr "c") evs); exact IH.
Qed.

Lemma parse_info_vol : forall evs l l',
  parse evs l = Next l' ->
  info_vol l' = match optargs_of (chr "i") evs with
                | [] => info_vol l
                | _ :: _ => 1
                end.
Proof.
  field_induction switch_i "i"%char.
  destruct (optargs_of (chr "i") evs); exact IH.
Qed.

Lemma parse_protect_hidden : forall evs l l',
  parse evs l = Next l' ->
  protect_hidden l' = match optargs_of (chr "e") evs with
                      | [] => protect_hidden l
                      | _ :: _ => 1
                      end.
Proof.
  field_induction switch_e "e"%char.
  destruct (optargs_of (chr "e") evs); exact IH.
Qed.

Lemma parse_contain_hidden : forall evs l l',
  parse evs l = Next l' ->
  contain_hidden l' = match optargs_of (chr "g") evs with
                      | [] => contain_hidden l
                      | _ :: _ => 1
                      end.
Proof.
  field_induction switch_g "g"%char.
  destruct (optargs_of (chr "g") evs); exact IH.
Qed.

Lemma parse_dev : forall evs l l',
  parse evs l = Next l' ->
  dev l' = match last (optargs_of (chr "d") evs) with
           | Some p => p
           | None => dev l
           end.
Proof.
  field_induction switch_d "d"%char.
  rewrite last_cons. destruct (last (optargs_of (chr "d") evs)); exact IH.
Qed.

Lemma parse_map : forall evs l l',
  parse evs l = Next l' ->
  map_vol l' = match optargs_of (chr "m") evs with
               | [] => map_vol l
               | _ :: _ => 1
               end
  /\ map_name l' = match last (optargs_of (chr "m") evs) with
                   | Some p => p
                   | None => map_name l
                   end.
Proof.
  field_induction switch_m "m"%char.
  rewrite last_cons.
  destruct (last (optargs_of (chr "m") evs));
    destruct (optargs_of (chr "m") evs); exact IH.
Qed.

Lemma parse_sys : forall evs l l',
  parse evs l = Next l' ->
  sflag l' = match optargs_of (chr "s") evs with
             | [] => sflag l
             | _ :: _ => 1
             end
  /\ sys_dev l' = match last (optargs_of (chr "s") evs) with
                  | Some p => p
                  | None => sys_dev l
                  end.
Proof.
  field_induction switch_s "s"%char.
  rewrite last_cons.
  destruct (last (optargs_of (chr "s") evs));
    destruct (optargs_of (chr "s") evs); exact IH.
Qed.

(** The locals at the end of the option loop, read off the command line. *)
Lemma parse_init_summary (evs : list opt_event) (l : locals) :
  parse evs init = Next l ->
  create_vol l = flag_of (chr "c") evs
  /\ info_vol l = flag_of (chr "i") evs
  /\ map_vol l = flag_of (chr "m") evs
  /\ protect_hidden l = flag_of (chr "e") evs
  /\ contain_hidden l = flag_of (chr "g") evs
  /\ sflag l = flag_of (chr "s") evs
  /\ dev l = last_arg (chr "d") evs
  /\ map_name l = last_arg (chr "m") evs
  /\ sys_dev l = last_arg (chr "s") evs
  /\ (0 <? n_hkeyfiles l) = truthy (flag_of (chr "f") evs).
Proof.
  intros Hp. unfold flag_of, last_arg.
  rewrite (parse_create_vol _ _ _ Hp), (parse_info_vol _ _ _ Hp),
    (parse_protect_hidden _ _ _ Hp), (parse_contain_hidden _ _ _ Hp),
    (parse_dev _ _ _ Hp).
  destruct (parse_map _ _ _ Hp) as [-> ->].
  destruct (parse_sys _ _ _ Hp) as [-> ->].
  repeat split.
  destruct init_arrays_ok as [_ Hf].
  destruct (parse_h_keyfiles evs init l Hp Hf) as (_ & -> & _).
  unfold occurrences. simpl n_hkeyfiles.
  destruct (optargs_of (chr "f") evs); reflexivity.
Qed.

(** The argument check decides on the command line alone. *)
Lemma bad_arguments_accepted (evs : list opt_event) (l : locals) :
  parse evs init = Next l -> bad_arguments l = negb (accepted evs).
Proof.
  intros Hp.
  destruct (parse_init_summary evs l Hp)
    as (Hc & Hi & Hm & He & Hg & Hs & Hd & Hmn & Hsd & Hf).
  unfold bad_arguments, accepted.
  rewrite Hc, Hi, Hm, He, Hg, Hs, Hd, Hmn, Hsd, Hf.
  destruct (truthy (flag_of (chr "m") evs)), (truthy (flag_of (chr "i") evs)),
    (truthy (flag_of (chr "c") evs)), (truthy (flag_of (chr "g") evs)),
    (truthy (flag_of (chr "s") evs)), (truthy (flag_of (chr "e") evs)),
    (truthy (flag_of (chr "f") evs)), (non_null (last_arg (chr "d") evs)),
    (non_null (last_arg (chr "s") evs)), (non_null (last_arg (chr "m") evs));
    reflexivity.
Qed.

(** X1. The argument check of main is a property of the command line: an
    engine operation is invoked only for an accepted command line; and when
    the option loop runs to its end, an accepted command line reaches
    exactly one engine operation and any other ends in usage(). *)
Theorem argument_check_on_options (evs : list opt_event) :
  (forall c, c ∈ engine_calls (fst (main evs)) -> accepted evs = true)
  /\ (forall l, parse evs init = Next l -> accepted evs = true ->
        exists c, engine_calls (fst (main evs)) = [c]
                  /\ snd (main evs) = Return (engine_result c))
  /\ (forall l, parse evs init = Next l -> accepted evs = false ->
        main evs = (startup ++ [EUsage], Exit 1)).
Proof.
  repeat split.
  - intros c Hin. destruct (main_call_inv evs c Hin) as (l & [Hp Hb] & _).
    rewrite (bad_arguments_accepted evs l Hp) in Hb.
    destruct (accepted evs); [reflexivity | discriminate].
  - intros l Hp Ha.
    assert (Hv : validated evs l).
    { split; [exact Hp |]. rewrite (bad_arguments_accepted evs l Hp), Ha.
      reflexivity. }
    destruct (validated_selected evs l Hv) as [c Hc].
    exists c. exact (main_validated evs l c Hv Hc).
  - intros l Hp Ha. unfold main.
    rewrite Hp, (bad_arguments_accepted evs l Hp), Ha. reflexivity.
Qed.

(** X2. What an engine operation is handed is read off the command line:
    the device is the argument of the last [-d]; the operation is
    [create_volume], [info_volume] or [map_volume] as [-c], [-i] or [-m] is
    the one mode option given; a flag is [1] if its option occurs and [0] if
    not; the system device and the mapping name are the arguments of the
    last [-s] and the last [-m]. *)
Theorem engine_receives_options (evs : list opt_event) (c : engine_call) :
  c ∈ engine_calls (fst (main evs)) ->
  call_dev c = last_arg (chr "d") evs
  /\ mode_of c = (truthy (flag_of (chr "c") evs),
                  truthy (flag_of (chr "i") evs),
                  truthy (flag_of (chr "m") evs))
  /\ (forall v, call_hidden c = Some v -> v = flag_of (chr "g") evs)
  /\ (forall v, call_protect_hidden c = Some v -> v = flag_of (chr "e") evs)
  /\ (forall v, call_sflag c = Some v -> v = flag_of (chr "s") evs)
  /\ (forall p, call_sys_dev c = Some p -> p = last_arg (chr "s") evs)
  /\ (forall p, call_map_name c = Some p -> p = last_arg (chr "m") evs).
Proof.
  intros Hin. destruct (main_call_inv evs c Hin) as (l & [Hp Hb] & Hs).
  destruct (parse_init_summary evs l Hp)
    as (Hc & Hi & Hm & He & Hg & Hsf & Hd & Hmn & Hsd & _).
  apply bad_arguments_false in Hb.
  destruct Hb as (_ & _ & Hmi & Hmc & Hci & _).
  rewrite <- Hc, <- Hi, <- Hm, <- He, <- Hg, <- Hsf, <- Hd, <- Hmn, <- Hsd.
  unfold selected in Hs.
  destruct (truthy (create_vol l)), (truthy (info_vol l)),
    (truthy (map_vol l)); try discriminate; injection Hs as <-;
    repeat split; simpl; intros ? Heq; try discriminate Heq;
    injection Heq as <-; reflexivity.
Qed.

(** ** The forms a run can take *)

Lemma store_incr_inl (arr : list slot) (n : Z) (p : cstr) u :
  store_incr arr n p = inl u ->
  (u = OutOfBounds /\ ~ (0 <= n < MAX_KEYFILES))
  \/ (u = SignedOverflow /\ INT_MAX <= n).
Proof.
  unfold store_incr.
  destruct (Z.leb_spec 0 n), (Z.ltb_spec n MAX_KEYFILES); simpl;
    try (intros Heq; injection Heq as <-; left; split; [reflexivity | lia]).
  destruct (Z.ltb_spec n INT_MAX); [discriminate |].
  intros Heq. injection Heq as <-. right. split; [reflexivity | lia].
Qed.

Lemma parse_halt_shape (evs : list opt_event) (l : locals) t o :
  parse evs l = Halt t o ->
  (t = [EUsage] /\ o = Exit 1)
  \/ (o = Exit 0 /\ (t = [] \/ t = [EVersion MAJ_VER MIN_VER]))
  \/ (t = [] /\ (o = Undef OutOfBounds \/ o = Undef SignedOverflow
                 \/ o = Undef NullDeref)).
Proof.
  revert l. induction evs as [|e evs IH]; intros l; simpl; [discriminate |].
  destruct (opt_step l e) as [l'|t' o'] eqn:He; [apply IH |].
  intros Heq. injection Heq as -> ->.
  unfold opt_step, usage in He.
  repeat match type of He with
         | context [match ?x with _ => _ end] => destruct x eqn:?
         end; try discriminate; injection He as <- <-;
    try match goal with
        | Hst : store_incr _ _ _ = inl _ |- _ =>
            apply store_incr_inl in Hst; destruct Hst as [[-> _]|[-> _]]
        end;
    first [ left; split; reflexivity
          | right; left; split;
            [reflexivity | first [left; reflexivity | right; reflexivity]]
          | right; right; split;
            [reflexivity
            | first [ left; reflexivity
                    | right; left; reflexivity
                    | right; right; reflexivity ]] ].
Qed.

Lemma dispatch_trace (l : locals) (c : engine_call) :
  selected l = Some c ->
  dispatch l = (ECall c :: log_after c, Return (engine_result c)).
Proof.
  unfold selected, dispatch, log_after.
  destruct (truthy (create_vol l)).
  - intros Heq. injection Heq as <-. simpl.
    destruct (truthy (create_volume (create_call l))); reflexivity.
  - destruct (truthy (info_vol l)); [intros Heq; injection Heq as <-; reflexivity |].
    destruct (truthy (map_vol l)); [intros Heq; injection Heq as <-; reflexivity |].
    discriminate.
Qed.

(** X3. Every run of main has one of four forms.  It invokes one engine
    operation, logs after it only when that operation is a [create_volume]
    that failed, and returns the operation's result code; or it invokes
    none and ends in usage() with [exit(1)]; or it invokes none and ends
    with [exit(0)], having printed at most its version; or it leaves
    defined behaviour in the option loop, by a store outside a keyfile
    array, an overflow of a keyfile counter or a [NULL] option argument.
    No run calls the engine twice, calls it and then exits, or returns an
    unassigned [error]. *)
Theorem run_shape (evs : list opt_event) :
  (exists c, fst (main evs) = startup ++ ECall c :: log_after c
             /\ snd (main evs) = Return (engine_result c))
  \/ main evs = (startup ++ [EUsage], Exit 1)
  \/ (snd (main evs) = Exit 0
      /\ (fst (main evs) = startup
          \/ fst (main evs) = startup ++ [EVersion MAJ_VER MIN_VER]))
  \/ (fst (main evs) = startup
      /\ (snd (main evs) = Undef OutOfBounds
          \/ snd (main evs) = Undef SignedOverflow
          \/ snd (main evs) = Undef NullDeref)).
Proof.
  unfold main. destruct (parse evs init) as [l|t o] eqn:Hp.
  - destruct (bad_arguments l) eqn:Hb; [right; left; reflexivity |].
    left. destruct (validated_selected evs l (conj Hp Hb)) as [c Hc].
    exists c. rewrite (dispatch_trace l c Hc). split; reflexivity.
  - right. cbn [fst snd].
    destruct (parse_halt_shape _ _ _ _ Hp)
      as [[-> ->]|[[-> [-> | ->]]|[-> Hu]]]; auto 6.
Qed.

(** ** Options that end the process *)

(** What follows an option that ends the process is never looked at. *)
Lemma main_halting (pre rest : list opt_event) (e : opt_event) (l : locals) t o :
  parse pre init = Next l -> opt_step l e = Halt t o ->
  main (pre ++ e :: rest) = (startup ++ t, o).
Proof.
  intros Hp He. unfold main. rewrite parse_app, Hp. simpl. rewrite He.
  reflexivity.
Qed.

Lemma prf_unset_iff (pre : list opt_event) (l : locals) :
  parse pre init = Next l ->
  non_null (prf l) = negb (occurrences (chr "a") pre =? 0)%nat
  /\ non_null (cipher_chain l) = negb (occurrences (chr "b") pre =? 0)%nat.
Proof.
  intros Hp. unfold occurrences.
  pose proof (parse_prf pre init l Hp) as Ha.
  pose proof (parse_cipher_chain pre init l Hp) as Hb.
  split.
  - destruct (optargs_of (chr "a") pre) as [|[n|] [|? ?]]; try contradiction.
    + rewrite Ha. reflexivity.
    + destruct Ha as (_ & _ & Hn). destruct (prf l); [reflexivity | congruence].
  - destruct (optargs_of (chr "b") pre) as [|[n|] [|? ?]]; try contradiction.
    + rewrite Hb. reflexivity.
    + destruct Hb as (_ & _ & Hn).
      destruct (cipher_chain l); [reflexivity | congruence].
Qed.

(** X4. An option that ends the process does so whatever follows it on the
    command line, provided the options before it let the loop go on.  An
    option that is none of [a b c d e f g i k m s v] (so [-h] and ['?'])
    ends in usage().  [-v] prints the version and ends with [exit(0)].
    [-a] with a name that [check_prf_algo] rejects ends with [exit(0)] when
    it is the first [-a] and the name is [help], and in usage() otherwise;
    and likewise [-b] with [check_cipher_chain]. *)
Theorem option_ends_process (pre rest : list opt_event) (e : opt_event)
    (l : locals) :
  parse pre init = Next l ->
  (switch (ch e) = Case_default ->
   main (pre ++ e :: rest) = (startup ++ [EUsage], Exit 1))
  /\ (ch e = chr "v" ->
      main (pre ++ e :: rest) = (startup ++ [EVersion MAJ_VER MIN_VER], Exit 0))
  /\ (forall s, ch e = chr "a" -> optarg e = Some s ->
      check_prf_algo s 0 = None ->
      main (pre ++ e :: rest)
      = if (occurrences (chr "a") pre =? 0)%nat && String.eqb s "help"
        then (startup, Exit 0) else (startup ++ [EUsage], Exit 1))
  /\ (forall s, ch e = chr "b" -> optarg e = Some s ->
      check_cipher_chain s 0 = None ->
      main (pre ++ e :: rest)
      = if (occurrences (chr "b") pre =? 0)%nat && String.eqb s "help"
        then (startup, Exit 0) else (startup ++ [EUsage], Exit 1)).
Proof.
  intros Hp. destruct (prf_unset_iff pre l Hp) as [Ha Hb]. repeat split.
  - intros Hsw. apply (main_halting pre rest e l _ _ Hp).
    unfold opt_step. rewrite Hsw. reflexivity.
  - intros Hv. apply switch_v in Hv. apply (main_halting pre rest e l _ _ Hp).
    unfold opt_step. rewrite Hv. reflexivity.
  - intros s Hc Hs Hck. apply switch_a in Hc.
    destruct (occurrences (chr "a") pre =? 0)%nat; simpl in Ha |- *.
    + destruct (String.eqb s "help") eqn:Hh;
        apply (main_halting pre rest e l _ _ Hp);
        unfold opt_step; rewrite Hc, Ha, Hs, Hck, Hh; reflexivity.
    + apply (main_halting pre rest e l _ _ Hp).
      unfold opt_step. rewrite Hc, Ha. reflexivity.
  - intros s Hc Hs Hck. apply switch_b in Hc.
    destruct (occurrences (chr "b") pre =? 0)%nat; simpl in Hb |- *.
    + destruct (String.eqb s "help") eqn:Hh;
        apply (main_halting pre rest e l _ _ Hp);
        unfold opt_step; rewrite Hc, Hb, Hs, Hck, Hh; reflexivity.
    + apply (main_halting pre rest e l _ _ Hp).
      unfold opt_step. rewrite Hc, Hb. reflexivity.
Qed.

(** X5. main ends with [exit(0)] only on request: when it does, the command
    line holds [-v], or [-a] or [-b] with the argument [help], and no
    engine operation was invoked. *)
Theorem exit_zero_on_request (evs : list opt_event) :
  snd (main evs) = Exit 0 ->
  Exists (fun e => exit0_option e = true) evs
  /\ engine_calls (fst (main evs)) = [].
Proof.
  unfold main. destruct (parse evs init) as [l|t o] eqn:Hp.
  - destruct (bad_arguments l); [discriminate |].
    pose proof (dispatch_selected l) as Hd.
    destruct (selected l); [destruct Hd as [_ ->] | rewrite Hd]; discriminate.
  - cbn [fst snd]. intros ->. rewrite engine_calls_startup.
    split; [| exact (parse_halt_no_call _ _ _ _ Hp)].
    destruct (parse_halt_kinds _ _ _ _ Hp) as [[_ He]|[[_ Hex]|[u Hu]]];
      [discriminate | exact Hex | discriminate].
Qed.

(** ** Defined behaviour *)

(** A store outside an array or an overflow of a counter needs more
    keyfile options than the arrays hold. *)
Lemma parse_overflow (evs : list opt_event) (l : locals) t u :
  parse evs l = Halt t (Undef u) ->
  u = OutOfBounds \/ u = SignedOverflow ->
  MAX_KEYFILES <= INT_MAX ->
  0 <= nkeyfiles l -> 0 <= n_hkeyfiles l ->
  MAX_KEYFILES < nkeyfiles l + Z.of_nat (occurrences (chr "k") evs)
  \/ MAX_KEYFILES < n_hkeyfiles l + Z.of_nat (occurrences (chr "f") evs).
Proof.
  intros Hp Hu Hmax. revert l Hp. unfold occurrences.
  induction evs as [|e evs IH]; intros l; simpl parse; [discriminate |].
  destruct (opt_step l e) as [l1|t1 o1] eqn:He.
  - intros Hp Hk Hf. specialize (IH l1 Hp).
    unfold opt_step in He. revert He.
    destruct (switch (ch e)) eqn:Hsw; intros He;
      first [ rewrite (optargs_of_same _ Case_k e evs switch_k) by assumption
            | rewrite (optargs_of_other _ Case_k e evs switch_k) by congruence ];
      first [ rewrite (optargs_of_same _ Case_f e evs switch_f) by assumption
            | rewrite (optargs_of_other _ Case_f e evs switch_f) by congruence ];
      try (step_cases He; apply IH; assumption).
    + destruct (store_incr _ _ _) as [?|[a n]] eqn:Hst; [discriminate |].
      injection He as <-. apply store_incr_inr in Hst.
      destruct Hst as (Hb & _ & _ & ->). simpl in IH.
      destruct IH as [IH|IH]; [lia | lia | left | right];
        simpl length; lia.
    + destruct (store_incr _ _ _) as [?|[a n]] eqn:Hst; [discriminate |].
      injection He as <-. apply store_incr_inr in Hst.
      destruct Hst as (Hb & _ & _ & ->). simpl in IH.
      destruct IH as [IH|IH]; [lia | lia | left | right];
        simpl length; lia.
  - intros Heq Hk Hf. injection Heq as -> ->.
    unfold opt_step, usage in He. revert He.
    destruct (switch (ch e)) eqn:Hsw; intros He;
      first [ rewrite (optargs_of_same _ Case_k e evs switch_k) by assumption
            | rewrite (optargs_of_other _ Case_k e evs switch_k) by congruence ];
      first [ rewrite (optargs_of_same _ Case_f e evs switch_f) by assumption
            | rewrite (optargs_of_other _ Case_f e evs switch_f) by congruence ];
      repeat match type of He with
             | context [match ?x with _ => _ end] => destruct x eqn:?
             end; try discriminate; injection He as _ <-;
      try (destruct Hu; discriminate);
      match goal with
      | Hst : store_incr _ _ _ = inl _ |- _ =>
          apply store_incr_inl in Hst; destruct Hst as [[_ Hn]|[_ Hn]]
      end; simpl length; first [left; lia | right; lia].
Qed.

(** X6. main stays within defined behaviour, that is, it ends in an exit
    or returns from an engine operation, on every command line on which
    [-k] and [-f] each occur at most [MAX_KEYFILES] times and every [-a] and
    [-b] carries its argument, [MAX_KEYFILES] being an [int]. *)
Theorem main_defined (evs : list opt_event) :
  Forall carries_argument evs ->
  MAX_KEYFILES <= INT_MAX ->
  Z.of_nat (occurrences (chr "k") evs) <= MAX_KEYFILES ->
  Z.of_nat (occurrences (chr "f") evs) <= MAX_KEYFILES ->
  exists code, snd (main evs) = Exit code \/ snd (main evs) = Return code.
Proof.
  intros Hca Hmax Hk Hf.
  destruct (run_shape evs) as [(c & _ & ->)|[->|[[-> _]|[Ht Hu]]]]; eauto.
  exfalso. unfold main in Hu, Ht.
  destruct (parse evs init) as [l|t o] eqn:Hp.
  - destruct (bad_arguments l); [destruct Hu as [Hu|[Hu|Hu]]; discriminate |].
    pose proof (dispatch_selected l) as Hd.
    destruct (selected l); [destruct Hd as [_ Hd] | ];
      rewrite Hd in Hu; destruct Hu as [Hu|[Hu|Hu]]; discriminate.
  - cbn [snd] in Hu.
    assert (Hov : forall u, o = Undef u -> u = OutOfBounds \/ u = SignedOverflow ->
                  False).
    { intros u -> Hu'.
      destruct (parse_overflow evs init t u Hp Hu' Hmax) as [Hx|Hx];
        simpl in *; lia. }
    destruct Hu as [Hu|[Hu|Hu]].
    + exact (Hov _ Hu (or_introl eq_refl)).
    + exact (Hov _ Hu (or_intror eq_refl)).
    + subst o. exact (parse_no_null_deref evs init t Hca Hp).
Qed.

(** ** The rest of the keyfile arrays *)

Lemma parse_keyfiles_tail (evs : list opt_event) (l l' : locals) :
  parse evs l = Next l' ->
  array_ok (keyfiles l) (nkeyfiles l) ->
  (Z.to_nat (nkeyfiles l) <= Z.to_nat MAX_KEYFILES)%nat ->
  (forall j, (Z.to_nat (nkeyfiles l) <= j < Z.to_nat MAX_KEYFILES)%nat ->
     keyfiles l !! j = Some Indeterminate) ->
  (Z.to_nat (nkeyfiles l') <= Z.to_nat MAX_KEYFILES)%nat
  /\ (forall j, (Z.to_nat (nkeyfiles l') <= j < Z.to_nat MAX_KEYFILES)%nat ->
        keyfiles l' !! j = Some Indeterminate).
Proof.
  revert l. induction evs as [|e evs IH]; intros l; simpl.
  - intros Heq Hok Hn Ht. injection Heq as <-. split; assumption.
  - destruct (opt_step l e) as [l1|] eqn:He; [| discriminate].
    intros Hp Hok Hn Ht. specialize (IH l1 Hp).
    unfold opt_step in He. revert He.
    destruct (switch (ch e)) eqn:Hsw; intros He;
      try (step_cases He; apply IH; assumption).
    destruct (store_incr _ _ _) as [?|[a n]] eqn:Hst; [discriminate |].
    injection He as <-. simpl in IH.
    destruct (array_store _ _ _ _ _ Hok Hst) as (Hok' & -> & _ & _).
    apply store_incr_inr in Hst. destruct Hst as (Hb & _ & -> & _).
    apply IH; [exact Hok' | lia |].
    intros j Hj. rewrite list_lookup_insert_ne by lia. apply Ht. lia.
Qed.

Lemma parse_h_keyfiles_tail (evs : list opt_event) (l l' : locals) :
  parse evs l = Next l' ->
  array_ok (h_keyfiles l) (n_hkeyfiles l) ->
  (Z.to_nat (n_hkeyfiles l) <= Z.to_nat MAX_KEYFILES)%nat ->
  (forall j, (Z.to_nat (n_hkeyfiles l) <= j < Z.to_nat MAX_KEYFILES)%nat ->
     h_keyfiles l !! j = Some Indeterminate) ->
  (Z.to_nat (n_hkeyfiles l') <= Z.to_nat MAX_KEYFILES)%nat
  /\ (forall j, (Z.to_nat (n_hkeyfiles l') <= j < Z.to_nat MAX_KEYFILES)%nat ->
        h_keyfiles l' !! j = Some Indeterminate).
Proof.
  revert l. induction evs as [|e evs IH]; intros l; simpl.
  - intros Heq Hok Hn Ht. injection Heq as <-. split; assumption.
  - destruct (opt_step l e) as [l1|] eqn:He; [| discriminate].
    intros Hp Hok Hn Ht. specialize (IH l1 Hp).
    unfold opt_step in He. revert He.
    destruct (switch (ch e)) eqn:Hsw; intros He;
      try (step_cases He; apply IH; assumption).
    destruct (store_incr _ _ _) as [?|[a n]] eqn:Hst; [discriminate |].
    injection He as <-. simpl in IH.
    destruct (array_store _ _ _ _ _ Hok Hst) as (Hok' & -> & _ & _).
    apply store_incr_inr in Hst. destruct Hst as (Hb & _ & -> & _).
    apply IH; [exact Hok' | lia |].
    intros j Hj. rewrite list_lookup_insert_ne by lia. apply Ht. lia.
Qed.

(** X7. On a command line on which [-k] and [-f] each occur at most
    [MAX_KEYFILES] times, [MAX_KEYFILES] being an [int], an engine operation
    is handed arrays of [MAX_KEYFILES] elements each, counts that are the
    numbers of occurrences of [-k] and of [-f], hence between [0] and
    [MAX_KEYFILES], and arrays in which every element from the count on is
    one no option has assigned, so only the elements below the count may be
    read.  (With more occurrences the stores leave the arrays: see
    [keyfiles_overflow].) *)
Theorem keyfile_arrays_shape (evs : list opt_event) (c : engine_call) :
  MAX_KEYFILES <= INT_MAX ->
  Z.of_nat (occurrences (chr "k") evs) <= MAX_KEYFILES ->
  Z.of_nat (occurrences (chr "f") evs) <= MAX_KEYFILES ->
  c ∈ engine_calls (fst (main evs)) ->
  length (call_keyfiles c) = Z.to_nat MAX_KEYFILES
  /\ length (call_h_keyfiles c) = Z.to_nat MAX_KEYFILES
  /\ call_nkeyfiles c = Z.of_nat (occurrences (chr "k") evs)
  /\ call_n_hkeyfiles c = Z.of_nat (occurrences (chr "f") evs)
  /\ 0 <= call_nkeyfiles c <= MAX_KEYFILES
  /\ 0 <= call_n_hkeyfiles c <= MAX_KEYFILES
  /\ (forall j, (Z.to_nat (call_nkeyfiles c) <= j < Z.to_nat MAX_KEYFILES)%nat ->
        call_keyfiles c !! j = Some Indeterminate)
  /\ (forall j, (Z.to_nat (call_n_hkeyfiles c) <= j < Z.to_nat MAX_KEYFILES)%nat ->
        call_h_keyfiles c !! j = Some Indeterminate).
Proof.
  intros _ Hkmax Hfmax Hin.
  destruct (main_call_inv evs c Hin) as (l & [Hp _] & Hs).
  destruct (selected_keyfiles l c Hs) as (-> & -> & -> & ->).
  destruct init_arrays_ok as [Hk Hf].
  destruct (parse_keyfiles evs init l Hp Hk) as ([_ Hkl] & Hkn & _).
  destruct (parse_h_keyfiles evs init l Hp Hf) as ([_ Hfl] & Hfn & _).
  simpl in Hkn, Hfn.
  assert (Hinit : forall j, (0 <= j < Z.to_nat MAX_KEYFILES)%nat ->
                    replicate (Z.to_nat MAX_KEYFILES) Indeterminate !! j
                    = Some Indeterminate).
  { intros j Hj. apply lookup_replicate_2. lia. }
  destruct (parse_keyfiles_tail evs init l Hp Hk) as [_ Hkt];
    [simpl; lia | exact Hinit |].
  destruct (parse_h_keyfiles_tail evs init l Hp Hf) as [_ Hft];
    [simpl; lia | exact Hinit |].
  repeat split; try assumption; lia.
Qed.

(** ** The order of the options *)

(** Two passes of the loop body for options with different labels can be
    taken in either order. *)
Lemma opt_step_swap (l l1 l2 : locals) (e1 e2 : opt_event) :
  switch (ch e1) <> switch (ch e2) ->
  opt_step l e1 = Next l1 -> opt_step l1 e2 = Next l2 ->
  exists l1', opt_step l e2 = Next l1' /\ opt_step l1' e1 = Next l2.
Proof.
  intros Hne H1 H2. unfold opt_step in *.
  destruct (switch (ch e1)) eqn:Hs1; destruct (switch (ch e2)) eqn:Hs2;
    try congruence; clear Hne;
    repeat match type of H1 with
           | context [match ?x with _ => _ end] => destruct x eqn:?
           end; try discriminate H1; injection H1 as <-;
    simpl in H2;
    repeat match type of H2 with
           | context [match ?x with _ => _ end] => destruct x eqn:?
           end; try discriminate H2; injection H2 as <-;
    eexists; (split; [reflexivity |]); simpl;
    repeat match goal with
           | Heq : ?x = _ |- context [match ?x with _ => _ end] => rewrite Heq
           end; reflexivity.
Qed.

Lemma parse_swap (pre rest : list opt_event) (e1 e2 : opt_event) (l l' : locals) :
  switch (ch e1) <> switch (ch e2) ->
  parse (pre ++ e1 :: e2 :: rest) l = Next l' ->
  parse (pre ++ e2 :: e1 :: rest) l = Next l'.
Proof.
  intros Hne. rewrite !parse_app.
  destruct (parse pre l) as [l0|]; [| discriminate].
  simpl. destruct (opt_step l0 e1) as [l1|] eqn:H1; [| discriminate].
  destruct (opt_step l1 e2) as [l2|] eqn:H2; [| discriminate].
  destruct (opt_step_swap l0 l1 l2 e1 e2 Hne H1 H2) as (l1' & -> & ->).
  intros Hp. exact Hp.
Qed.

(** X8. On a command line that reaches an engine operation, two
    neighbouring options with different labels can change places: main then
    invokes the same operation with the same arguments and returns the same
    result. *)
Theorem options_swap (pre rest : list opt_event) (e1 e2 : opt_event)
    (c : engine_call) :
  switch (ch e1) <> switch (ch e2) ->
  c ∈ engine_calls (fst (main (pre ++ e1 :: e2 :: rest))) ->
  main (pre ++ e2 :: e1 :: rest) = main (pre ++ e1 :: e2 :: rest).
Proof.
  intros Hne Hin.
  destruct (main_call_inv _ c Hin) as (l & [Hp _] & _).
  unfold main. rewrite Hp, (parse_swap pre rest e1 e2 init l Hne Hp).
  reflexivity.
Qed.

(** X10. Of two neighbouring occurrences of one of the options
    [c d e g i m s] only the later one counts: dropping the earlier one
    changes nothing in what main does, on any command line. *)
Theorem later_option_overrides (pre rest : list opt_event) (e1 e2 : opt_event) :
  switch (ch e1) = switch (ch e2) ->
  overwrites (switch (ch e2)) = true ->
  main (pre ++ e1 :: e2 :: rest) = main (pre ++ e2 :: rest).
Proof.
  intros Heq Hov. unfold main. rewrite !parse_app.
  destruct (parse pre init) as [l|]; [| reflexivity].
  simpl parse. unfold opt_step. rewrite Heq.
  destruct (switch (ch e2)); try discriminate Hov; reflexivity.
Qed.

End Option_loop.

(** * The further properties at the sample command lines *)

Section More_examples.
Import Sample.
#[local] Existing Instance tc_play.
#[local] Existing Instance signals.
#[local] Existing Instance engine_run.

(** X1 at [tc-play -m vol -d /dev/da0 -e --keyfile-hidden h.key], which is
    accepted, and at [tc-play -i -c -d /dev/da0], which is not. *)
Lemma argument_check_on_options_witness :
  (accepted cmd_map = true
   /\ exists c, engine_calls (fst (main cmd_map)) = [c]
                /\ snd (main cmd_map) = Return (engine_result c))
  /\ accepted cmd_two_modes = false
  /\ main cmd_two_modes = (startup ++ [EUsage], Exit 1).
Proof.
  destruct (argument_check_on_options cmd_map) as (_ & Hyes & _).
  destruct (argument_check_on_options cmd_two_modes) as (_ & _ & Hno).
  split; [split; [reflexivity |] |].
  - apply (Hyes (parsed cmd_map)); vm_compute; reflexivity.
  - split; [reflexivity |].
    apply (Hno (parsed cmd_two_modes)); vm_compute; reflexivity.
Defined.

(** X2 at [tc-play -d /dev/da0 -i -d /dev/da1 -e -s /dev/da]. *)
Lemma engine_receives_options_witness :
  let c := InfoVolume (info_call (parsed cmd_two_devices)) in
  c ∈ engine_calls (fst (main cmd_two_devices))
  /\ call_dev c = Some "/dev/da1"%string
  /\ call_protect_hidden c = Some 1
  /\ call_sflag c = Some 1
  /\ call_sys_dev c = Some (Some "/dev/da"%string).
Proof.
  split; [vm_compute; left |].
  destruct (engine_receives_options cmd_two_devices
              (InfoVolume (info_call (parsed cmd_two_devices))))
    as (Hd & _ & _ & Hp & Hs & Hsd & _).
  - vm_compute. left.
  - split; [exact (eq_trans Hd eq_refl) |].
    split; [exact (f_equal Some (eq_trans (Hp _ eq_refl) eq_refl)) |].
    split; [exact (f_equal Some (eq_trans (Hs _ eq_refl) eq_refl)) |].
    exact (f_equal Some (eq_trans (Hsd _ eq_refl) eq_refl)).
Defined.

(** X4 at [tc-play -i -d /dev/da0 -x -c]: the unknown option ends the run
    in usage() and [-c] is not looked at. *)
Lemma option_ends_process_witness :
  parse cmd_info_dev init = Next (parsed cmd_info_dev)
  /\ main (cmd_info_dev ++ OptEvent (chr "?") None :: [OptEvent (chr "c") None])
     = (startup ++ [EUsage], Exit 1).
Proof.
  split; [vm_compute; reflexivity |].
  destruct (option_ends_process cmd_info_dev [OptEvent (chr "c") None]
              (OptEvent (chr "?") None) (parsed cmd_info_dev)) as (Hu & _).
  - vm_compute. reflexivity.
  - apply Hu. reflexivity.
Defined.

(** X5 at [tc-play -v -a SHA-512 -a SHA-512]. *)
Lemma exit_zero_on_request_witness :
  snd (main cmd_version_twice) = Exit 0
  /\ Exists (fun e => exit0_option e = true) cmd_version_twice
  /\ engine_calls (fst (main cmd_version_twice)) = [].
Proof.
  split; [reflexivity |].
  apply (exit_zero_on_request cmd_version_twice). reflexivity.
Defined.

Lemma cmd_info_carries : Forall carries_argument cmd_info.
Proof. apply getopt_long_carries. Qed.

(** X6 at [tc-play -i -d /dev/da0 -k a.key --keyfile=b.key]. *)
Lemma main_defined_witness :
  exists code, snd (main cmd_info) = Exit code \/ snd (main cmd_info) = Return code.
Proof.
  apply (main_defined cmd_info cmd_info_carries);
    vm_compute; discriminate.
Defined.

(** X7 at [tc-play -i -d /dev/da0 -k a.key --keyfile=b.key]. *)
Lemma keyfile_arrays_shape_witness :
  let c := InfoVolume (info_call (parsed cmd_info)) in
  (Z.of_nat (occurrences (chr "k") cmd_info) <= MAX_KEYFILES
   /\ Z.of_nat (occurrences (chr "f") cmd_info) <= MAX_KEYFILES
   /\ c ∈ engine_calls (fst (main cmd_info)))
  /\ length (call_keyfiles c) = 256%nat
  /\ call_nkeyfiles c = 2
  /\ call_keyfiles c !! 2%nat = Some Indeterminate
  /\ call_h_keyfiles c !! 0%nat = Some Indeterminate.
Proof.
  split; [split; [vm_compute; discriminate |];
          split; [vm_compute; discriminate | vm_compute; left] |].
  destruct (keyfile_arrays_shape cmd_info
              (InfoVolume (info_call (parsed cmd_info))))
    as (Hl & _ & Hn & _ & _ & _ & Hk & Hf).
  - vm_compute. discriminate.
  - vm_compute. discriminate.
  - vm_compute. discriminate.
  - vm_compute. left.
  - split; [exact Hl |]. split; [exact Hn |].
    split; [apply Hk | apply Hf]; vm_compute; split; lia.
Defined.

(** X8 at [tc-play -i -d /dev/da0] and [tc-play -d /dev/da0 -i]. *)
Lemma options_swap_witness :
  main ([] ++ OptEvent (chr "d") (Some "/dev/da0"%string)
           :: OptEvent (chr "i") None :: [])
  = main ([] ++ OptEvent (chr "i") None
             :: OptEvent (chr "d") (Some "/dev/da0"%string) :: []).
Proof.
  apply (options_swap [] [] (OptEvent (chr "i") None)
           (OptEvent (chr "d") (Some "/dev/da0"%string))
           (InfoVolume (info_call (parsed cmd_info_dev)))).
  - vm_compute. discriminate.
  - vm_compute. left.
Defined.

(** X10 at [tc-play -d /dev/da0 -d /dev/da1 -i]: as [tc-play -d /dev/da1 -i]. *)
Lemma later_option_overrides_witness :
  main ([] ++ OptEvent (chr "d") (Some "/dev/da0"%string)
           :: OptEvent (chr "d") (Some "/dev/da1"%string)
           :: [OptEvent (chr "i") None])
  = main ([] ++ OptEvent (chr "d") (Some "/dev/da1"%string)
             :: [OptEvent (chr "i") None]).
Proof.
  apply (later_option_overrides []); reflexivity.
Defined.

End More_examples.
